(** * RI_SDN: mobility-anchor selection of [enfin.py]

    A shallow embedding of the three nested helpers of [RI_SDN]
    ([adjacency_matrix], [most_connected_nodes], [determine_anchor]) and of
    the pipeline that chains them, followed by the properties of the
    anchor-selection policy.

    Conventions.
    - A numpy 2-D array is a list of rows; the builder only stores 0.0 and
      1.0, whose row sums are exact, so entries and sums are integers ([Z]).
    - Index arrays are those [np.where] yields: non-negative, hence [nat].
    - A Python exception is a value of [exn]; a call that may raise returns
      a [result]. *)

From Stdlib Require Import List ZArith Arith Lia Bool Sorted.
From Stdlib Require String Ascii DecimalString DecimalPos DecimalZ.
Import ListNotations.

Set Implicit Arguments.

(** ** Exceptions and the error monad *)

Inductive exn : Type :=
| ValueError   (* np.max / np.min of a zero-size array *)
| IndexError.  (* subscript out of range *)

Inductive result (A : Type) : Type :=
| Ok (a : A)
| Raise (e : exn).

Arguments Ok {A} a.
Arguments Raise {A} e.

Definition bind {A B : Type} (r : result A) (k : A -> result B) : result B :=
  match r with
  | Ok a => k a
  | Raise e => Raise e
  end.

Notation "x <- c ;; k" := (bind c (fun x => k))
  (at level 61, c at next level, right associativity).

(** [for x in xs: s = body x s], the body threading the mutated state. *)
Fixpoint for_each {A S : Type} (xs : list A) (body : A -> S -> result S)
    (s : S) : result S :=
  match xs with
  | [] => Ok s
  | x :: xs' => s' <- body x s ;; for_each xs' body s'
  end.

(** [for x in xs: ...] whose body may execute [return v]: [Some v] is the
    value returned from inside the loop, [None] a loop that ran to its end. *)
Fixpoint for_return {A R : Type} (xs : list A) (body : A -> result (option R))
    : result (option R) :=
  match xs with
  | [] => Ok None
  | x :: xs' =>
      r <- body x ;;
      match r with
      | Some v => Ok (Some v)
      | None => for_return xs' body
      end
  end.

Fixpoint enumerate_from {A : Type} (k : nat) (l : list A) : list (nat * A) :=
  match l with
  | [] => []
  | x :: l' => (k, x) :: enumerate_from (S k) l'
  end.

Definition enumerate {A : Type} (l : list A) : list (nat * A) :=
  enumerate_from 0 l.

(** [l[i]] for a non-negative [i]. *)
Definition getitem {A : Type} (l : list A) (i : nat) : result A :=
  match nth_error l i with
  | Some x => Ok x
  | None => Raise IndexError
  end.

Fixpoint set_nth {A : Type} (l : list A) (i : nat) (v : A) : list A :=
  match l, i with
  | [], _ => []
  | _ :: l', O => v :: l'
  | x :: l', S i' => x :: set_nth l' i' v
  end.

(** ** The numpy operations the program uses *)

Module Np.

Definition matrix : Type := list (list Z).

(** [np.zeros((r, c))] *)
Definition zeros (r c : nat) : matrix := repeat (repeat 0%Z c) r.

(** [a[i, j]] *)
Definition getitem2 (a : matrix) (i j : nat) : result Z :=
  row <- getitem a i ;; getitem row j.

(** [a[i, j] = v] *)
Definition setitem2 (a : matrix) (i j : nat) (v : Z) : result matrix :=
  row <- getitem a i ;;
  if j <? length row then Ok (set_nth a i (set_nth row j v))
  else Raise IndexError.

(** [a.sum(axis=1)], which is also [np.sum(a, axis=1)]. *)
Definition sum_axis1 (a : matrix) : list Z :=
  map (fun row => fold_left Z.add row 0%Z) a.

(** [np.max(v)] *)
Definition max (v : list Z) : result Z :=
  match v with
  | [] => Raise ValueError
  | x :: v' => Ok (fold_left Z.max v' x)
  end.

(** [np.min(v)] *)
Definition min (v : list Z) : result Z :=
  match v with
  | [] => Raise ValueError
  | x :: v' => Ok (fold_left Z.min v' x)
  end.

Fixpoint where_eq_from (k : nat) (v : list Z) (m : Z) : list nat :=
  match v with
  | [] => []
  | x :: v' =>
      if (x =? m)%Z then k :: where_eq_from (S k) v' m
      else where_eq_from (S k) v' m
  end.

(** [np.where(v == m)[0]] *)
Definition where_eq (v : list Z) (m : Z) : list nat := where_eq_from 0 v m.

(** [a[idx]] for an index array [idx]: the rows of [a] at those indices. *)
Fixpoint take (a : matrix) (idx : list nat) : result matrix :=
  match idx with
  | [] => Ok []
  | i :: idx' =>
      row <- getitem a i ;;
      rows <- take a idx' ;;
      Ok (row :: rows)
  end.

End Np.

(** ** The program *)

Section RI_SDN.

Context {Node : Type}.
Variable Node_eq_dec : forall x y : Node, {x = y} + {x <> y}.

(** [nodes = net.stations + net.aps + net.switches] *)
Variable nodes : list Node.

(** [node.connectionsTo(nodes)], the connectivity query of the simulator. *)
Variable connectionsTo : Node -> list Node -> list Node.

Definition adjacency_matrix : result Np.matrix :=
  let num_nodes := length nodes in
  let adj_matrix := Np.zeros num_nodes num_nodes in
  for_each (enumerate nodes) (fun '(i, node) adj_matrix =>
    for_each (enumerate nodes) (fun '(j, neighbor) adj_matrix =>
      if in_dec Node_eq_dec neighbor (connectionsTo node nodes)
      then Np.setitem2 adj_matrix i j 1%Z
      else Ok adj_matrix) adj_matrix) adj_matrix.

(** Line 124, [adj_matrix.sum(axis=1)]: the degree of every node. *)
Definition degree_vector (adj_matrix : Np.matrix) : list Z :=
  Np.sum_axis1 adj_matrix.

(** Line 139, [np.sum(adj_matrix, axis=1)]: the "distance" of every node. *)
Definition distance_vector (adj_matrix : Np.matrix) : list Z :=
  Np.sum_axis1 adj_matrix.

Definition most_connected_nodes (adj_matrix : Np.matrix)
    : result (list nat) :=
  let connections := degree_vector adj_matrix in
  max_connections <- Np.max connections ;;
  let smc := Np.where_eq connections max_connections in
  Ok smc.

Definition determine_anchor (smc : list nat) (adj_matrix : Np.matrix)
    : result Node :=
  if length smc =? 1 then
    i <- getitem smc 0 ;; getitem nodes i
  else
    r <- for_return smc (fun i =>
           for_return smc (fun j =>
             if negb (i =? j) then
               a <- Np.getitem2 adj_matrix i j ;;
               if (a =? 0)%Z then n <- getitem nodes i ;; Ok (Some n)
               else Ok None
             else Ok None)) ;;
    match r with
    | Some n => Ok n
    | None =>
        let distances := distance_vector adj_matrix in
        min_distance <- Np.min distances ;;
        let sdc := Np.where_eq distances min_distance in
        if length sdc =? 1 then
          i <- getitem sdc 0 ;; getitem nodes i
        else
          rows <- Np.take adj_matrix sdc ;;
          let smc_connections := Np.sum_axis1 rows in
          max_smc_connections <- Np.max smc_connections ;;
          let anchor_candidates :=
            Np.where_eq smc_connections max_smc_connections in
          i <- getitem anchor_candidates 0 ;; getitem nodes i
    end.

(** The body of [RI_SDN]; the anchor is the value it logs. *)
Definition RI_SDN : result Node :=
  adj_matrix <- adjacency_matrix ;;
  smc <- most_connected_nodes adj_matrix ;;
  determine_anchor smc adj_matrix.

End RI_SDN.

(** ** Snapshots used in the examples

    Nodes are numbered; a node's connections are its partners in an edge
    list, each edge being seen from both of its ends. *)

Definition partners (edges : list (nat * nat)) (node : nat) : list nat :=
  flat_map (fun '(a, b) =>
              (if a =? node then [b] else []) ++
              (if b =? node then [a] else [])) edges.

Definition probe (edges : list (nat * nat)) (node : nat) (_ : list nat)
    : list nat :=
  partners edges node.

(** ** Views of the program used in the statements *)

(** [a[i][j]], read as 0 outside the array. *)
Definition entry (a : Np.matrix) (i j : nat) : Z := nth j (nth i a []) 0%Z.

(** An [n] by [n] array. *)
Definition square (n : nat) (a : Np.matrix) : Prop :=
  length a = n /\ Forall (fun row => length row = n) a.

(** Lines 139-141: the minimum-distance set SDC. *)
Definition sdc_of (adj_matrix : Np.matrix) : result (list nat) :=
  let distances := distance_vector adj_matrix in
  min_distance <- Np.min distances ;;
  Ok (Np.where_eq distances min_distance).

(** Lines 134-137: the scan of the ordered pairs of candidates. *)
Definition scan_pairs {Node : Type} (nodes : list Node) (smc : list nat)
    (adj_matrix : Np.matrix) : result (option Node) :=
  for_return smc (fun i =>
    for_return smc (fun j =>
      if negb (i =? j) then
        a <- Np.getitem2 adj_matrix i j ;;
        if (a =? 0)%Z then n <- getitem nodes i ;; Ok (Some n)
        else Ok None
      else Ok None)).

(** Lines 143-149: what is returned once SDC is known. *)
Definition resolve_sdc {Node : Type} (nodes : list Node) (sdc : list nat)
    (adj_matrix : Np.matrix) : result Node :=
  if length sdc =? 1 then
    i <- getitem sdc 0 ;; getitem nodes i
  else
    rows <- Np.take adj_matrix sdc ;;
    let smc_connections := Np.sum_axis1 rows in
    max_smc_connections <- Np.max smc_connections ;;
    let anchor_candidates :=
      Np.where_eq smc_connections max_smc_connections in
    i <- getitem anchor_candidates 0 ;; getitem nodes i.

(** Lines 139-149: the two fallback stages. *)
Definition fallback {Node : Type} (nodes : list Node)
    (adj_matrix : Np.matrix) : result Node :=
  sdc <- sdc_of adj_matrix ;; resolve_sdc nodes sdc adj_matrix.

(** The entry the builder stores for the pair ([node], [neighbor]). *)
Definition linked {Node : Type}
    (Node_eq_dec : forall x y : Node, {x = y} + {x <> y})
    (nodes : list Node) (connectionsTo : Node -> list Node -> list Node)
    (node neighbor : Node) : Z :=
  if in_dec Node_eq_dec neighbor (connectionsTo node nodes) then 1%Z
  else 0%Z.

(** Symmetry and diagonal of an array. *)
Definition symmetric (a : Np.matrix) : Prop :=
  forall i j, entry a i j = entry a j i.

Definition zero_diagonal (a : Np.matrix) : Prop :=
  forall i, entry a i i = 0%Z.

(** The test of line 136 on an in-range pair. *)
Definition disconnected (adj_matrix : Np.matrix) (i j : nat) : bool :=
  negb (i =? j) && (entry adj_matrix i j =? 0)%Z.

(** The internal-disconnection rule as the specification words it: the
    first ordered pair of distinct candidates, outer and inner index both
    running through the candidates in their order, whose matrix entry is
    zero. *)
Definition first_disconnected_pair (candidates : list nat)
    (matrix : Np.matrix) : option (nat * nat) :=
  find (fun '(i, j) => disconnected matrix i j)
       (list_prod candidates candidates).

(** The candidates form a clique. *)
Definition clique (candidates : list nat) (matrix : Np.matrix) : Prop :=
  forall i j, In i candidates -> In j candidates -> i <> j ->
              entry matrix i j <> 0%Z.

(** The secondary-connectivity stage as the specification words it: the
    first member of SDC, in ascending order, whose row sum is the maximum of
    the row sums of the members of SDC. *)
Definition secondary_choice (sdc : list nat) (matrix : Np.matrix)
    : option nat :=
  let secondaryScore k := fold_left Z.add (nth k matrix []) 0%Z in
  match sdc with
  | [] => None
  | k0 :: rest =>
      let maxSecondary :=
        fold_left Z.max (map secondaryScore rest) (secondaryScore k0) in
      find (fun k => (secondaryScore k =? maxSecondary)%Z) sdc
  end.

(** ** The set-up code

    The network object [net] and the node objects are the simulator's; what
    the set-up functions do to them is the sequence of calls they make, so a
    function is modelled by the calls it makes, in order, and by what it
    returns or raises. *)

Module Setup.
Import String Ascii.

(** [str(n)] and [f'{n}'] for an integer. *)
Definition str (n : Z) : string :=
  DecimalString.NilZero.string_of_int (Z.to_int n).

(** [range(n)] *)
Definition range (n : Z) : list Z := map Z.of_nat (seq 0 (Z.to_nat n)).

(** [l[i]] for any integer [i], negative ones counting from the end. *)
Definition subscript {A : Type} (l : list A) (i : Z) : result A :=
  let n := Z.of_nat (List.length l) in
  if (i <? 0)%Z then
    if (i + n <? 0)%Z then Raise IndexError
    else getitem l (Z.to_nat (i + n))
  else getitem l (Z.to_nat i).

(** [s.split(sep)] for a separator of one character. *)
Fixpoint split (sep : ascii) (s : string) : list string :=
  match s with
  | EmptyString => [EmptyString]
  | String c s' =>
      if Ascii.eqb c sep then EmptyString :: split sep s'
      else match split sep s' with
           | [] => [String c EmptyString]
           | field :: fields => String c field :: fields
           end
  end.

(** The arguments of one call of [net.addAccessPoint]; the record also
    stands for the access point the call returns. *)
Record access_point : Type := {
  ap_name : string;
  ap_ssid : string;
  ap_mode : string;
  ap_channel : string;
  ap_position : string
}.

(** Line 37: the access point created at row [i], column [j]. *)
Definition access_point_at (cols i j : Z) : access_point :=
  {| ap_name := "ap" ++ str (i * cols + j + 1);
     ap_ssid := "ap" ++ str (i * cols + j + 1) ++ "-wlan0";
     ap_mode := "g";
     ap_channel := str (i * cols + j + 1);
     ap_position := str ((j + 1) * 50) ++ "," ++
                    str ((i + 1) * 50) ++ ",0" |}%string.

(** Lines 29-39: the calls of [net.addAccessPoint], which are also the list
    returned. *)
Definition create_access_points (rows cols : Z) : list access_point :=
  let aps := [] in
  let spacing_x := 50%Z in
  let spacing_y := 50%Z in
  fold_left (fun aps i =>
    fold_left (fun aps j =>
      let ap :=
        {| ap_name := "ap" ++ str (i * cols + j + 1);
           ap_ssid := "ap" ++ str (i * cols + j + 1) ++ "-wlan0";
           ap_mode := "g";
           ap_channel := str (i * cols + j + 1);
           ap_position := str ((j + 1) * spacing_x) ++ "," ++
                          str ((i + 1) * spacing_y) ++ ",0" |}%string in
      aps ++ [ap]) (range cols) aps) (range rows) aps.

(** Calls made so far, and the value returned or the exception raised. *)
Definition io (C A : Type) : Type := (list C * result A)%type.

Definition io_bind {C A B : Type} (m : io C A) (k : A -> io C B) : io C B :=
  match m with
  | (calls, Ok a) => let '(calls', r) := k a in (calls ++ calls', r)
  | (calls, Raise e) => (calls, Raise e)
  end.

Notation "x <-- c ;; k" := (io_bind c (fun x => k))
  (at level 61, c at next level, right associativity).

Definition call {C : Type} (c : C) : io C unit := ([c], Ok tt).

Definition eval {C A : Type} (r : result A) : io C A := ([], r).

(** One call [net.addLink(node1, node2, cls=TCLink, bw=bw)]. *)
Inductive link (Node : Type) : Type :=
| addLink (node1 node2 : Node) (bw : Z).

Arguments addLink {Node} node1 node2 bw.

(** Lines 49-58. *)
Definition create_links {Node : Type} (h1 h2 : Node) (aps : list Node)
    (s1 s2 s5 s6 : Node) : io (link Node) unit :=
  ap <-- eval (subscript aps 0) ;;
  _ <-- call (addLink s1 ap 300) ;;
  _ <-- call (addLink h1 s1 100) ;;
  _ <-- call (addLink h2 s6 100) ;;
  ap <-- eval (subscript aps (-1)) ;;
  _ <-- call (addLink s6 ap 300) ;;
  _ <-- call (addLink s1 s2 300) ;;
  _ <-- call (addLink s5 s6 400) ;;
  call (addLink s2 s5 200).

(** The calls of [setup_mobility]: on [net], and the assignment
    [sta.coord = ...] on a station. *)
Inductive mobility_call (Sta : Type) : Type :=
| plotGraph (max_x max_y : Z)
| set_coord (sta : Sta) (coord : list string)
| startMobility (time mob_rep : Z) (reverse : bool)
| mobility (sta : Sta) (what : string) (time : Z)
    (kwargs : list (string * string))
| stopMobility (time : Z).

Arguments plotGraph {Sta} max_x max_y.
Arguments set_coord {Sta} sta coord.
Arguments startMobility {Sta} time mob_rep reverse.
Arguments mobility {Sta} sta what time kwargs.
Arguments stopMobility {Sta} time.

(** ['-x' in args] *)
Definition has_argument (flag : string) (args : list string) : bool :=
  existsb (String.eqb flag) args.

(** Lines 60-87. *)
Definition setup_mobility {Sta : Type} (args : list string)
    (sta1 sta2 sta3 : Sta) : list (mobility_call Sta) :=
  (if negb (has_argument "-p" args) then [plotGraph 200 200] else []) ++
  (if has_argument "-c" args then
     [set_coord sta1 ["40.0,30.0,0.0"; "31.0,10.0,0.0"; "50.0,25.0,0.0"];
      set_coord sta2 ["40.0,40.0,0.0"; "55.0,31.0,0.0"; "75.0,75.0,0.0"];
      set_coord sta3 ["40.0,40.0,0.0"; "55.0,31.0,0.0"; "155.0,125.0,0.0"]]
   else [])%string ++
  [startMobility 0 1 false] ++
  let '(p1, p2, p3, p4, p5, p6) :=
    if negb (has_argument "-c" args) then
      ([("position", "40.0,30.0,0.0")], [("position", "40.0,40.0,0.0")],
       [("position", "155.0,25.0,0.0")], [("position", "50.0,40.0,0.0")],
       [("position", "75.0,75.0,0.0")],
       [("position", "155.0,120.0,0.0")])%string
    else ([], [], [], [], [], []) in
  [mobility sta1 "start" 1 p1;
   mobility sta2 "start" 2 p2;
   mobility sta3 "start" 4 p3;
   mobility sta1 "stop" 12 p4;
   mobility sta2 "stop" 30 p5;
   mobility sta3 "stop" 50 p6;
   stopMobility 60]%string.

Section Arguments.

(** [int(text)], Python's conversion of text to an integer. *)
Variable int : string -> result Z.

(** Lines 165-171: the grid dimensions [topology] reads from its
    arguments. *)
Definition grid_dimensions (args : list string) : result (Z * Z) :=
  let rows := 2%Z in
  let cols := 3%Z in
  for_each args (fun arg '(rows, cols) =>
    if prefix "--rows=" arg then
      text <- getitem (split "=" arg) 1 ;;
      rows <- int text ;;
      Ok (rows, cols)
    else if prefix "--cols=" arg then
      text <- getitem (split "=" arg) 1 ;;
      cols <- int text ;;
      Ok (rows, cols)
    else Ok (rows, cols)) (rows, cols).

End Arguments.

End Setup.

(** A matrix entry the builder can store. *)
Definition zero_one (x : Z) : Prop := x = 0%Z \/ x = 1%Z.

Lemma determine_anchor_stages {Node : Type} (nodes : list Node)
    (smc : list nat) (adj_matrix : Np.matrix) :
  determine_anchor nodes smc adj_matrix =
  if length smc =? 1 then i <- getitem smc 0 ;; getitem nodes i
  else
    r <- scan_pairs nodes smc adj_matrix ;;
    match r with
    | Some n => Ok n
    | None => fallback nodes adj_matrix
    end.
Proof.
  unfold determine_anchor, scan_pairs, fallback, sdc_of.
  destruct (length smc =? 1); [reflexivity|].
  destruct (for_return smc _) as [[n|]|e]; simpl; try reflexivity.
  destruct (Np.min (distance_vector adj_matrix)); reflexivity.
Qed.

(** Past the singleton rule and a scan that ran to its end, the anchor is
    resolved from the SDC of lines 139-141. *)
Lemma determine_anchor_uses_sdc {Node : Type} (nodes : list Node)
    (smc sdc : list nat) (adj_matrix : Np.matrix) :
  length smc <> 1 ->
  scan_pairs nodes smc adj_matrix = Ok None ->
  sdc_of adj_matrix = Ok sdc ->
  determine_anchor nodes smc adj_matrix = resolve_sdc nodes sdc adj_matrix.
Proof.
  intros Hlen Hscan Hsdc. rewrite determine_anchor_stages.
  destruct (Nat.eqb_spec (length smc) 1) as [|_]; [contradiction|].
  rewrite Hscan. cbn [bind]. unfold fallback. rewrite Hsdc. reflexivity.
Qed.

(** ** Facts about the numpy operations *)

Lemma sum_axis1_length (a : Np.matrix) : length (Np.sum_axis1 a) = length a.
Proof. apply length_map. Qed.

Lemma fold_max_spec (v : list Z) : forall x,
  let m := fold_left Z.max v x in
  (m = x \/ In m v) /\ (x <= m)%Z /\ Forall (fun y => (y <= m)%Z) v.
Proof.
  induction v as [|y v IH]; intros x; simpl.
  - repeat split; auto; lia.
  - destruct (IH (Z.max x y)) as (Hin & Hle & Hall).
    repeat split.
    + destruct Hin as [Hin|Hin]; [|now right; right].
      destruct (Z.max_spec x y) as [[_ E]|[_ E]]; rewrite E in Hin;
        [right; left|left]; congruence.
    + lia.
    + constructor; [lia|exact Hall].
Qed.

Lemma fold_min_spec (v : list Z) : forall x,
  let m := fold_left Z.min v x in
  (m = x \/ In m v) /\ (m <= x)%Z /\ Forall (fun y => (m <= y)%Z) v.
Proof.
  induction v as [|y v IH]; intros x; simpl.
  - repeat split; auto; lia.
  - destruct (IH (Z.min x y)) as (Hin & Hle & Hall).
    repeat split.
    + destruct Hin as [Hin|Hin]; [|now right; right].
      destruct (Z.min_spec x y) as [[_ E]|[_ E]]; rewrite E in Hin;
        [left|right; left]; congruence.
    + lia.
    + constructor; [lia|exact Hall].
Qed.

Lemma np_max_spec (v : list Z) (m : Z) :
  Np.max v = Ok m -> In m v /\ Forall (fun y => (y <= m)%Z) v.
Proof.
  destruct v as [|x v]; simpl; [discriminate|].
  intros E; injection E as <-.
  destruct (fold_max_spec v x) as (Hin & Hle & Hall).
  split; [destruct Hin; auto|constructor; assumption].
Qed.

Lemma np_min_spec (v : list Z) (m : Z) :
  Np.min v = Ok m -> In m v /\ Forall (fun y => (m <= y)%Z) v.
Proof.
  destruct v as [|x v]; simpl; [discriminate|].
  intros E; injection E as <-.
  destruct (fold_min_spec v x) as (Hin & Hle & Hall).
  split; [destruct Hin; auto|constructor; assumption].
Qed.

Lemma np_max_ok (v : list Z) : v <> [] -> exists m, Np.max v = Ok m.
Proof. destruct v; [congruence|simpl; eauto]. Qed.

Lemma np_min_ok (v : list Z) : v <> [] -> exists m, Np.min v = Ok m.
Proof. destruct v; [congruence|simpl; eauto]. Qed.

Lemma where_eq_from_In (v : list Z) (m : Z) : forall k i,
  In i (Np.where_eq_from k v m) <-> k <= i /\ nth_error v (i - k) = Some m.
Proof.
  induction v as [|x v IH]; intros k i; simpl.
  - split; [tauto|]. intros [_ H]. destruct (i - k); discriminate.
  - assert (Hrec : In i (Np.where_eq_from (S k) v m) <->
                   k < i /\ nth_error v (i - S k) = Some m)
      by (rewrite IH; tauto).
    destruct (Z.eqb_spec x m) as [->|Hne]; simpl; rewrite Hrec.
    + split.
      * intros [<-|[Hlt H]].
        -- rewrite Nat.sub_diag. auto.
        -- split; [lia|]. replace (i - k) with (S (i - S k)) by lia. exact H.
      * intros [Hle H]. destruct (Nat.eq_dec k i) as [|Hki]; [auto|right].
        split; [lia|]. replace (i - k) with (S (i - S k)) in H by lia. exact H.
    + split.
      * intros [Hlt H]. split; [lia|].
        replace (i - k) with (S (i - S k)) by lia. exact H.
      * intros [Hle H]. destruct (Nat.eq_dec k i) as [<-|Hki].
        -- rewrite Nat.sub_diag in H. simpl in H. congruence.
        -- split; [lia|].
           replace (i - k) with (S (i - S k)) in H by lia. exact H.
Qed.

Lemma where_eq_In (v : list Z) (m : Z) (i : nat) :
  In i (Np.where_eq v m) <-> nth_error v i = Some m.
Proof.
  unfold Np.where_eq. rewrite where_eq_from_In, Nat.sub_0_r.
  split; [tauto|split; [lia|assumption]].
Qed.

Lemma where_eq_from_sorted (v : list Z) (m : Z) : forall k,
  StronglySorted lt (Np.where_eq_from k v m).
Proof.
  induction v as [|x v IH]; intros k; simpl; [constructor|].
  destruct (x =? m)%Z; [|apply IH].
  constructor; [apply IH|].
  apply Forall_forall. intros i Hi. apply where_eq_from_In in Hi. lia.
Qed.

Lemma where_eq_sorted (v : list Z) (m : Z) :
  StronglySorted lt (Np.where_eq v m).
Proof. apply where_eq_from_sorted. Qed.

Lemma where_eq_nonempty (v : list Z) (m : Z) :
  In m v -> Np.where_eq v m <> [].
Proof.
  intros Hin E. apply In_nth_error in Hin as [i Hi].
  apply where_eq_In in Hi. rewrite E in Hi. exact Hi.
Qed.

(** ** Facts about array assignment *)

Lemma set_nth_length {A : Type} (l : list A) (v : A) : forall i,
  length (set_nth l i v) = length l.
Proof.
  induction l as [|x l IH]; intros [|i]; simpl; auto.
Qed.

Lemma nth_set_nth_eq {A : Type} (l : list A) (v d : A) : forall i,
  i < length l -> nth i (set_nth l i v) d = v.
Proof.
  induction l as [|x l IH]; intros [|i] H; simpl in *; try lia; auto.
  apply IH. lia.
Qed.

Lemma nth_set_nth_neq {A : Type} (l : list A) (v d : A) : forall i k,
  k <> i -> nth k (set_nth l i v) d = nth k l d.
Proof.
  induction l as [|x l IH]; intros [|i] [|k] H; simpl; auto; try lia.
Qed.

Lemma Forall_set_nth {A : Type} (P : A -> Prop) (l : list A) (v : A) :
  forall i, Forall P l -> P v -> Forall P (set_nth l i v).
Proof.
  induction l as [|x l IH]; intros [|i] Hl Hv; simpl; auto;
    inversion Hl; subst; constructor; auto.
Qed.

Lemma square_row (n : nat) (a : Np.matrix) (i : nat) :
  square n a -> i < n -> length (nth i a []) = n.
Proof.
  intros [Hlen Hrows] Hi.
  rewrite Forall_forall in Hrows. apply Hrows, nth_In. lia.
Qed.

Lemma getitem_nth {A : Type} (l : list A) (i : nat) (d : A) :
  i < length l -> getitem l i = Ok (nth i l d).
Proof.
  intros H. unfold getitem. rewrite (nth_error_nth' l d H). reflexivity.
Qed.

Lemma getitem2_entry (n : nat) (a : Np.matrix) (i j : nat) :
  square n a -> i < n -> j < n -> Np.getitem2 a i j = Ok (entry a i j).
Proof.
  intros Hsq Hi Hj. unfold Np.getitem2, entry.
  rewrite (getitem_nth a []) by (destruct Hsq; lia). simpl.
  apply getitem_nth. rewrite (square_row Hsq Hi). exact Hj.
Qed.

Lemma setitem2_spec (n : nat) (a : Np.matrix) (i j : nat) (v : Z) :
  square n a -> i < n -> j < n ->
  exists a', Np.setitem2 a i j v = Ok a' /\ square n a' /\
    entry a' i j = v /\
    forall i' j', i' <> i \/ j' <> j -> entry a' i' j' = entry a i' j'.
Proof.
  intros Hsq Hi Hj. pose proof (square_row Hsq Hi) as Hrow.
  destruct Hsq as [Hlen Hrows].
  unfold Np.setitem2. rewrite (getitem_nth a []) by lia. simpl.
  rewrite Hrow. destruct (Nat.ltb_spec j n) as [_|]; [|lia].
  eexists; split; [reflexivity|]. repeat split.
  - rewrite set_nth_length. exact Hlen.
  - apply Forall_set_nth; [exact Hrows|]. rewrite set_nth_length. exact Hrow.
  - unfold entry. rewrite nth_set_nth_eq by lia.
    apply nth_set_nth_eq. lia.
  - intros i' j' Hneq. unfold entry.
    destruct (Nat.eq_dec i' i) as [->|Hi'].
    + rewrite nth_set_nth_eq by lia. apply nth_set_nth_neq. tauto.
    + rewrite nth_set_nth_neq by exact Hi'. reflexivity.
Qed.

Lemma zeros_square (n : nat) : square n (Np.zeros n n).
Proof.
  split; [apply repeat_length|].
  apply Forall_forall. intros row Hrow.
  apply repeat_spec in Hrow. subst. apply repeat_length.
Qed.

Lemma entry_zeros (r c i j : nat) : entry (Np.zeros r c) i j = 0%Z.
Proof.
  unfold entry, Np.zeros.
  destruct (Nat.lt_ge_cases i r) as [Hi|Hi].
  - rewrite nth_repeat_lt by exact Hi.
    destruct (Nat.lt_ge_cases j c) as [Hj|Hj].
    + apply nth_repeat_lt. exact Hj.
    + apply nth_overflow. rewrite repeat_length. exact Hj.
  - rewrite (nth_overflow (repeat (repeat 0%Z c) r) [])
      by (rewrite repeat_length; exact Hi).
    destruct j; reflexivity.
Qed.

(** ** The builder *)

Section Builder.

Context {Node : Type}.
Variable Node_eq_dec : forall x y : Node, {x = y} + {x <> y}.
Variable nodes : list Node.
Variable connectionsTo : Node -> list Node -> list Node.

Let n := length nodes.

Let row_body (i : nat) (node : Node) :=
  fun '(j, neighbor) (adj_matrix : Np.matrix) =>
    if in_dec Node_eq_dec neighbor (connectionsTo node nodes)
    then Np.setitem2 adj_matrix i j 1%Z
    else Ok adj_matrix.

Lemma row_loop (i : nat) (node : Node) : forall l j0 a,
  square n a -> i < n -> j0 + length l <= n ->
  exists a', for_each (enumerate_from j0 l) (row_body i node) a = Ok a' /\
    square n a' /\
    (forall i' j', i' <> i \/ j' < j0 \/ j0 + length l <= j' ->
                   entry a' i' j' = entry a i' j') /\
    (forall k neighbor, nth_error l k = Some neighbor ->
       entry a' i (j0 + k) =
       if in_dec Node_eq_dec neighbor (connectionsTo node nodes)
       then 1%Z else entry a i (j0 + k)).
Proof.
  induction l as [|x l IH]; intros j0 a Hsq Hi Hlen;
    cbn [for_each enumerate_from length] in *.
  - exists a. split; [reflexivity|]. split; [exact Hsq|].
    split; [reflexivity|]. intros [|k] nb H; discriminate.
  - assert (Hstep : exists a1, row_body i node (j0, x) a = Ok a1 /\
              square n a1 /\
              entry a1 i j0 =
                (if in_dec Node_eq_dec x (connectionsTo node nodes)
                 then 1%Z else entry a i j0) /\
              forall i' j', i' <> i \/ j' <> j0 ->
                            entry a1 i' j' = entry a i' j').
    { unfold row_body.
      destruct (in_dec Node_eq_dec x (connectionsTo node nodes)).
      - apply setitem2_spec; auto; lia.
      - exists a. split; [reflexivity|]. split; [exact Hsq|].
        split; reflexivity. }
    destruct Hstep as (a1 & E1 & Hsq1 & Hhit & Hrest).
    destruct (IH (S j0) a1 Hsq1 Hi ltac:(lia)) as (a' & E' & Hsq' & Hout & Hin).
    exists a'. rewrite E1. cbn [bind].
    split; [exact E'|]. split; [exact Hsq'|]. split.
    + intros i' j' Hcond. rewrite Hout by lia. apply Hrest. lia.
    + intros [|k] nb Hnb; simpl in Hnb.
      * injection Hnb as <-. rewrite Nat.add_0_r.
        rewrite Hout by lia. exact Hhit.
      * replace (j0 + S k) with (S j0 + k) by lia.
        rewrite (Hin k nb Hnb), Hrest by lia. reflexivity.
Qed.

Let outer_body :=
  fun '(i, node) (adj_matrix : Np.matrix) =>
    for_each (enumerate nodes) (row_body i node) adj_matrix.

Lemma outer_loop : forall l i0 a,
  square n a -> i0 + length l <= n ->
  exists a', for_each (enumerate_from i0 l) outer_body a = Ok a' /\
    square n a' /\
    (forall i' j', i' < i0 \/ i0 + length l <= i' ->
                   entry a' i' j' = entry a i' j') /\
    (forall k node j neighbor,
       nth_error l k = Some node -> nth_error nodes j = Some neighbor ->
       entry a' (i0 + k) j =
       if in_dec Node_eq_dec neighbor (connectionsTo node nodes)
       then 1%Z else entry a (i0 + k) j).
Proof.
  induction l as [|x l IH]; intros i0 a Hsq Hlen;
    cbn [for_each enumerate_from length] in *.
  - exists a. split; [reflexivity|]. split; [exact Hsq|].
    split; [reflexivity|]. intros [|k] ? ? ? H; discriminate.
  - destruct (@row_loop i0 x nodes 0 a Hsq ltac:(lia) ltac:(subst n; lia))
      as (a1 & E1 & Hsq1 & Hout1 & Hin1).
    destruct (IH (S i0) a1 Hsq1 ltac:(lia)) as (a' & E' & Hsq' & Hout & Hin).
    exists a'. unfold outer_body at 1, enumerate. rewrite E1. cbn [bind].
    split; [exact E'|]. split; [exact Hsq'|]. split.
    + intros i' j' Hcond. rewrite Hout by lia. apply Hout1. lia.
    + intros [|k] node j nb Hnode Hnb; simpl in Hnode.
      * injection Hnode as <-. rewrite Nat.add_0_r.
        rewrite Hout by lia. apply (Hin1 j nb Hnb).
      * replace (i0 + S k) with (S i0 + k) by lia.
        rewrite (Hin k node j nb Hnode Hnb), Hout1 by lia. reflexivity.
Qed.

(** The builder never raises; it returns the square array whose entry
    ([i], [j]) records whether [nodes[j]] is among the connections the
    query reports for [nodes[i]]. *)
Lemma adjacency_matrix_spec :
  exists adj, adjacency_matrix Node_eq_dec nodes connectionsTo = Ok adj /\
    square (length nodes) adj /\
    forall i j node neighbor,
      nth_error nodes i = Some node -> nth_error nodes j = Some neighbor ->
      entry adj i j = linked Node_eq_dec nodes connectionsTo node neighbor.
Proof.
  destruct (@outer_loop nodes 0 (Np.zeros n n) (zeros_square n)
              ltac:(subst n; lia)) as (adj & E & Hsq & _ & Hin).
  exists adj. split; [exact E|]. split; [exact Hsq|].
  intros i j node nb Hi Hj. unfold linked.
  specialize (Hin i node j nb Hi Hj). cbn [Nat.add] in Hin.
  rewrite Hin, entry_zeros. reflexivity.
Qed.

End Builder.

Lemma entry_outside (n : nat) (a : Np.matrix) (i j : nat) :
  square n a -> n <= i \/ n <= j -> entry a i j = 0%Z.
Proof.
  intros Hsq Hout. unfold entry.
  destruct (Nat.lt_ge_cases i n) as [Hi|Hi].
  - apply nth_overflow. rewrite (square_row Hsq Hi). lia.
  - rewrite (nth_overflow a []) by (destruct Hsq; lia).
    destruct j; reflexivity.
Qed.

(** ** Candidate selection *)

(** C6: for an adjacency matrix with at least one row,
    [most_connected_nodes] returns a non-empty list of indices, in strictly
    ascending order, whose members are exactly the indices whose row sum is
    the maximum row sum. *)
Theorem most_connected_nodes_spec (adj : Np.matrix) :
  1 <= length adj ->
  exists smc maxDegree,
    most_connected_nodes adj = Ok smc /\
    smc <> [] /\
    StronglySorted lt smc /\
    In maxDegree (degree_vector adj) /\
    Forall (fun d => (d <= maxDegree)%Z) (degree_vector adj) /\
    forall i, In i smc <-> nth_error (degree_vector adj) i = Some maxDegree.
Proof.
  intros Hn. unfold most_connected_nodes.
  destruct (@np_max_ok (degree_vector adj)) as [m Hm].
  { intros E. apply (f_equal (@length Z)) in E.
    unfold degree_vector in E. rewrite sum_axis1_length in E.
    simpl in E. lia. }
  rewrite Hm. cbn [bind].
  destruct (np_max_spec _ Hm) as [Hin Hall].
  exists (Np.where_eq (degree_vector adj) m), m.
  split; [reflexivity|]. split; [apply where_eq_nonempty, Hin|].
  split; [apply where_eq_sorted|]. split; [exact Hin|].
  split; [exact Hall|]. intros i. apply where_eq_In.
Qed.

Lemma most_connected_nodes_spec_witness :
  1 <= length [[0; 1]; [1; 0]]%Z /\
  exists smc maxDegree,
    most_connected_nodes [[0; 1]; [1; 0]]%Z = Ok smc /\
    smc <> [] /\
    StronglySorted lt smc /\
    In maxDegree (degree_vector [[0; 1]; [1; 0]]%Z) /\
    Forall (fun d => (d <= maxDegree)%Z) (degree_vector [[0; 1]; [1; 0]]%Z) /\
    forall i, In i smc <->
              nth_error (degree_vector [[0; 1]; [1; 0]]%Z) i = Some maxDegree.
Proof.
  split; [simpl; lia|].
  apply (@most_connected_nodes_spec [[0; 1]; [1; 0]]%Z). simpl. lia.
Defined.

(** ** The "distance" of the fallback stage *)

(** C4: the "distance" vector of the global-degree fallback is, entry for
    entry, the degree vector of candidate selection, so that the
    minimum-distance set SDC consists exactly of the indices of globally
    minimum degree. *)
Theorem distance_vector_is_degree_vector (adj : Np.matrix) :
  adj <> [] ->
  distance_vector adj = degree_vector adj /\
  exists sdc, sdc_of adj = Ok sdc /\
    forall i, In i sdc <->
      exists d, nth_error (degree_vector adj) i = Some d /\
        forall k d', nth_error (degree_vector adj) k = Some d' ->
                     (d <= d')%Z.
Proof.
  intros Hne. split; [reflexivity|]. unfold sdc_of.
  destruct (@np_min_ok (distance_vector adj)) as [m Hm].
  { intros E. apply Hne. destruct adj; [reflexivity|discriminate]. }
  rewrite Hm. cbn [bind]. eexists; split; [reflexivity|].
  destruct (np_min_spec _ Hm) as [Hin Hall].
  change (distance_vector adj) with (degree_vector adj) in *.
  rewrite Forall_forall in Hall.
  intros i. rewrite where_eq_In. split.
  - intros Hi. exists m. split; [exact Hi|].
    intros k d' Hk. apply Hall. eapply nth_error_In, Hk.
  - intros (d & Hd & Hmin). rewrite Hd. f_equal.
    apply In_nth_error in Hin as [k Hk].
    pose proof (Hmin k m Hk). apply nth_error_In in Hd.
    pose proof (Hall d Hd). lia.
Qed.

Lemma distance_vector_is_degree_vector_witness :
  [[0; 1; 0]; [1; 0; 0]; [0; 0; 0]]%Z <> [] /\
  distance_vector [[0; 1; 0]; [1; 0; 0]; [0; 0; 0]]%Z =
    degree_vector [[0; 1; 0]; [1; 0; 0]; [0; 0; 0]]%Z /\
  exists sdc, sdc_of [[0; 1; 0]; [1; 0; 0]; [0; 0; 0]]%Z = Ok sdc /\
    forall i, In i sdc <->
      exists d,
        nth_error (degree_vector [[0; 1; 0]; [1; 0; 0]; [0; 0; 0]]%Z) i
          = Some d /\
        forall k d',
          nth_error (degree_vector [[0; 1; 0]; [1; 0; 0]; [0; 0; 0]]%Z) k
            = Some d' -> (d <= d')%Z.
Proof.
  split; [discriminate|].
  apply (@distance_vector_is_degree_vector
           [[0; 1; 0]; [1; 0; 0]; [0; 0; 0]]%Z).
  discriminate.
Defined.

(** ** Symmetry and diagonal of the built matrix *)

(** C7: for every snapshot, connectivity being undirected (the query is
    symmetric over the node list) and without self-loops (it reports no
    node among its own connections), the matrix the builder returns is
    symmetric and has a zero diagonal; the builder copies the answers of
    the query entry by entry. *)
Theorem adjacency_matrix_symmetric_zero_diagonal {Node : Type}
    (Node_eq_dec : forall x y : Node, {x = y} + {x <> y})
    (nodes : list Node) (connectionsTo : Node -> list Node -> list Node) :
  (forall a b, In a nodes -> In b nodes ->
     In b (connectionsTo a nodes) -> In a (connectionsTo b nodes)) ->
  (forall a, In a nodes -> ~ In a (connectionsTo a nodes)) ->
  exists adj,
    adjacency_matrix Node_eq_dec nodes connectionsTo = Ok adj /\
    square (length nodes) adj /\
    (forall i j node neighbor,
       nth_error nodes i = Some node -> nth_error nodes j = Some neighbor ->
       entry adj i j = linked Node_eq_dec nodes connectionsTo node neighbor) /\
    symmetric adj /\ zero_diagonal adj.
Proof.
  intros Hsym Hirr.
  destruct (adjacency_matrix_spec Node_eq_dec nodes connectionsTo)
    as (adj & E & Hsq & Hentry).
  exists adj. split; [exact E|]. split; [exact Hsq|]. split; [exact Hentry|].
  assert (Hget : forall i, i < length nodes ->
                   exists x, nth_error nodes i = Some x /\ In x nodes).
  { intros i Hi. destruct (nth_error nodes i) as [x|] eqn:Ex.
    - exists x. split; [reflexivity|]. eapply nth_error_In, Ex.
    - apply nth_error_None in Ex. lia. }
  split.
  - intros i j.
    destruct (Nat.lt_ge_cases i (length nodes)) as [Hi|Hi];
      [|rewrite !(entry_outside Hsq) by lia; reflexivity].
    destruct (Nat.lt_ge_cases j (length nodes)) as [Hj|Hj];
      [|rewrite !(entry_outside Hsq) by lia; reflexivity].
    destruct (Hget i Hi) as (x & Ex & Hx), (Hget j Hj) as (y & Ey & Hy).
    rewrite (Hentry i j x y Ex Ey), (Hentry j i y x Ey Ex). unfold linked.
    destruct (in_dec Node_eq_dec y (connectionsTo x nodes)) as [H1|H1],
             (in_dec Node_eq_dec x (connectionsTo y nodes)) as [H2|H2];
      try reflexivity.
    + exfalso. apply H2, Hsym; assumption.
    + exfalso. apply H1, Hsym; assumption.
  - intros i.
    destruct (Nat.lt_ge_cases i (length nodes)) as [Hi|Hi];
      [|rewrite (entry_outside Hsq) by lia; reflexivity].
    destruct (Hget i Hi) as (x & Ex & Hx).
    rewrite (Hentry i i x x Ex Ex). unfold linked.
    destruct (in_dec Node_eq_dec x (connectionsTo x nodes)) as [H|H];
      [exfalso; exact (Hirr x Hx H)|reflexivity].
Qed.

Lemma adjacency_matrix_symmetric_zero_diagonal_witness :
  exists adj,
    adjacency_matrix Nat.eq_dec (seq 0 4) (probe [(0, 1); (2, 3)]) = Ok adj /\
    square (length (seq 0 4)) adj /\
    (forall i j node neighbor,
       nth_error (seq 0 4) i = Some node ->
       nth_error (seq 0 4) j = Some neighbor ->
       entry adj i j =
       linked Nat.eq_dec (seq 0 4) (probe [(0, 1); (2, 3)]) node neighbor) /\
    symmetric adj /\ zero_diagonal adj.
Proof.
  apply (@adjacency_matrix_symmetric_zero_diagonal nat Nat.eq_dec (seq 0 4)
           (probe [(0, 1); (2, 3)])).
  - intros a b Ha Hb. simpl in Ha, Hb.
    decompose [or] Ha; decompose [or] Hb; subst; vm_compute;
      intuition congruence.
  - intros a Ha. simpl in Ha.
    decompose [or] Ha; subst; vm_compute; intuition congruence.
Defined.

(** Outside undirected, loop-free snapshots the builder keeps what the
    query says: on a snapshot in which node 0 is linked to itself the
    diagonal is not zero, the builder not skipping [i = j]; and a query
    that reports a link from one of its ends only is copied as it is, the
    builder not symmetrising. *)
Lemma adjacency_matrix_self_link :
  (adjacency_matrix Nat.eq_dec (seq 0 2) (probe [(0, 0); (0, 1)])
     = Ok [[1; 1]; [1; 0]]%Z /\
   ~ (symmetric [[1; 1]; [1; 0]]%Z /\ zero_diagonal [[1; 1]; [1; 0]]%Z)) /\
  (adjacency_matrix Nat.eq_dec (seq 0 2)
     (fun node _ => if node =? 0 then [1] else [])
     = Ok [[0; 1]; [0; 0]]%Z /\
   ~ (symmetric [[0; 1]; [0; 0]]%Z /\ zero_diagonal [[0; 1]; [0; 0]]%Z)).
Proof.
  split; (split; [reflexivity|]).
  - intros [_ H]. specialize (H 0). discriminate.
  - intros [H _]. specialize (H 0 1). discriminate.
Qed.

(** ** The empty snapshot *)

(** C8, as the code has it: the builder never raises; with no node it
    returns the empty array, and the pipeline stops afterwards, in
    [most_connected_nodes], whose [np.max] raises ValueError on the empty
    degree vector of that array. *)
Theorem adjacency_matrix_never_raises {Node : Type}
    (Node_eq_dec : forall x y : Node, {x = y} + {x <> y})
    (connectionsTo : Node -> list Node -> list Node) :
  (forall nodes, exists adj,
     adjacency_matrix Node_eq_dec nodes connectionsTo = Ok adj /\
     length adj = length nodes) /\
  adjacency_matrix Node_eq_dec [] connectionsTo = Ok [] /\
  degree_vector [] = [] /\
  Np.max (degree_vector []) = Raise ValueError /\
  most_connected_nodes [] = Raise ValueError /\
  (forall adj, most_connected_nodes adj = Raise ValueError <-> adj = []) /\
  RI_SDN Node_eq_dec [] connectionsTo = Raise ValueError.
Proof.
  split; [|repeat (split; [reflexivity|]); split; [|reflexivity]].
  - intros nodes.
    destruct (adjacency_matrix_spec Node_eq_dec nodes connectionsTo)
      as (adj & E & [Hlen _] & _).
    exists adj. split; assumption.
  - intros adj. split; [|intros ->; reflexivity].
    destruct adj as [|row adj]; [reflexivity|]. discriminate.
Qed.

(** The claim C8 as stated fails: the build step returns on the empty node
    list. *)
Lemma adjacency_matrix_empty_returns :
  exists adj : Np.matrix,
    adjacency_matrix Nat.eq_dec [] (probe []) = Ok adj /\
    forall e, adjacency_matrix Nat.eq_dec [] (probe []) <> Raise e.
Proof.
  exists []. split; [reflexivity|]. intros e. discriminate.
Qed.

(** ** The scan of the candidate pairs *)

Lemma find_app_split {A : Type} (f : A -> bool) (l1 l2 : list A) :
  find f (l1 ++ l2) =
  match find f l1 with Some x => Some x | None => find f l2 end.
Proof.
  induction l1 as [|x l1 IH]; simpl; [reflexivity|].
  destruct (f x); [reflexivity|exact IH].
Qed.

Lemma find_map_pair {A B : Type} (f : A * B -> bool) (x : A) (l : list B) :
  find f (map (pair x) l) = option_map (pair x) (find (fun y => f (x, y)) l).
Proof.
  induction l as [|y l IH]; simpl; [reflexivity|].
  destruct (f (x, y)); [reflexivity|exact IH].
Qed.

Lemma find_all_false {A : Type} (f : A -> bool) (l : list A) :
  (forall x, In x l -> f x = false) -> find f l = None.
Proof.
  induction l as [|x l IH]; intros H; simpl; [reflexivity|].
  rewrite (H x) by (left; reflexivity). apply IH.
  intros y Hy. apply H. right. exact Hy.
Qed.

(** The pair found by a scan of [list_prod l l'] is found row by row. *)
Lemma find_list_prod {A B : Type} (f : A * B -> bool) (l' : list B) :
  forall l : list A,
  find f (list_prod l l') =
  match find (fun x => match find (fun y => f (x, y)) l' with
                       | Some _ => true
                       | None => false
                       end) l with
  | Some x => option_map (pair x) (find (fun y => f (x, y)) l')
  | None => None
  end.
Proof.
  induction l as [|x l IH]; simpl; [reflexivity|].
  rewrite find_app_split, find_map_pair.
  destruct (find (fun y => f (x, y)) l') as [y|] eqn:E; simpl.
  - rewrite E. reflexivity.
  - exact IH.
Qed.

Section Scan.

Context {Node : Type}.
Variable nodes : list Node.
Variable adj : Np.matrix.
Variable n : nat.
Hypothesis Hsq : square n adj.

Let inner (i : nat) := fun j : nat =>
  if negb (i =? j) then
    a <- Np.getitem2 adj i j ;;
    if (a =? 0)%Z then x <- getitem nodes i ;; Ok (Some x)
    else Ok None
  else @Ok (option Node) None.

Lemma inner_scan (i : nat) : i < n -> forall js,
  Forall (fun j => j < n) js ->
  for_return js (inner i) =
  match find (disconnected adj i) js with
  | Some _ => x <- getitem nodes i ;; Ok (Some x)
  | None => Ok None
  end.
Proof.
  intros Hi. induction js as [|j js IH]; intros Hjs; [reflexivity|].
  inversion Hjs as [|? ? Hj Hjs']; subst.
  cbn [for_return find]. unfold inner at 1, disconnected at 1.
  destruct (negb (i =? j)); cbn [andb bind].
  - rewrite (getitem2_entry Hsq Hi Hj). cbn [bind].
    destruct (entry adj i j =? 0)%Z.
    + destruct (getitem nodes i); reflexivity.
    + cbn [bind]. apply IH, Hjs'.
  - apply IH, Hjs'.
Qed.

Lemma outer_scan (smc : list nat) :
  Forall (fun j => j < n) smc -> forall cs,
  Forall (fun i => i < n) cs ->
  for_return cs (fun i => for_return smc (inner i)) =
  match find (fun i => match find (disconnected adj i) smc with
                       | Some _ => true
                       | None => false
                       end) cs with
  | Some i => x <- getitem nodes i ;; Ok (Some x)
  | None => Ok None
  end.
Proof.
  intros Hsmc. induction cs as [|i cs IH]; intros Hcs; [reflexivity|].
  inversion Hcs as [|? ? Hi Hcs']; subst.
  cbn [for_return find]. rewrite (inner_scan Hi Hsmc).
  destruct (find (disconnected adj i) smc).
  - destruct (getitem nodes i); reflexivity.
  - cbn [bind]. apply IH, Hcs'.
Qed.

(** Lines 134-137 on in-range candidates: the scan returns the node at the
    outer index of the first disconnected pair, and runs to its end when
    there is none. *)
Lemma scan_pairs_spec (smc : list nat) :
  Forall (fun i => i < n) smc ->
  scan_pairs nodes smc adj =
  match first_disconnected_pair smc adj with
  | Some (i, _) => x <- getitem nodes i ;; Ok (Some x)
  | None => Ok None
  end.
Proof.
  intros Hsmc. unfold scan_pairs, first_disconnected_pair.
  etransitivity; [exact (outer_scan Hsmc Hsmc)|].
  rewrite (find_list_prod (fun '(i, j) => disconnected adj i j)).
  destruct (find _ smc) as [i|] eqn:Ei; [|reflexivity].
  apply find_some in Ei as [_ Ei].
  destruct (find (disconnected adj i) smc); [reflexivity|discriminate].
Qed.

Lemma clique_no_pair (smc : list nat) :
  clique smc adj -> first_disconnected_pair smc adj = None.
Proof.
  intros Hcl. apply find_all_false. intros [i j] Hin.
  apply in_prod_iff in Hin as [Hi Hj]. unfold disconnected.
  destruct (Nat.eqb_spec i j) as [|Hne]; [reflexivity|]. simpl.
  apply Z.eqb_neq, Hcl; assumption.
Qed.

End Scan.

(** ** A sorted index list with a single possible member *)

Lemma sorted_only_member (l : list nat) (m : nat) :
  StronglySorted lt l -> In m l -> (forall i, In i l -> i = m) -> l = [m].
Proof.
  intros Hs Hm Hall. destruct l as [|a l]; [contradiction|].
  assert (a = m) by (apply Hall; left; reflexivity). subst a.
  destruct l as [|b l]; [reflexivity|].
  assert (b = m) by (apply Hall; right; left; reflexivity). subst b.
  inversion Hs as [|? ? _ Hlt]; subst.
  inversion Hlt; subst. lia.
Qed.

Lemma where_eq_unique (v : list Z) (x : Z) (m : nat) :
  nth_error v m = Some x ->
  (forall k, k <> m -> nth_error v k <> Some x) ->
  Np.where_eq v x = [m].
Proof.
  intros Hm Hothers. apply sorted_only_member.
  - apply where_eq_sorted.
  - apply where_eq_In, Hm.
  - intros i Hi. apply where_eq_In in Hi.
    destruct (Nat.eq_dec i m) as [|Hne]; [assumption|].
    exfalso. exact (Hothers i Hne Hi).
Qed.

Lemma where_eq_bound (v : list Z) (x : Z) :
  Forall (fun i => i < length v) (Np.where_eq v x).
Proof.
  apply Forall_forall. intros i Hi. apply where_eq_In in Hi.
  apply nth_error_Some. congruence.
Qed.

(** ** Candidate selection with a single maximum *)

Lemma unique_max_smc (adj : Np.matrix) (m : nat) (dm : Z) :
  nth_error (degree_vector adj) m = Some dm ->
  (forall k d, k <> m -> nth_error (degree_vector adj) k = Some d ->
               (d < dm)%Z) ->
  most_connected_nodes adj = Ok [m].
Proof.
  intros Hm Hothers. unfold most_connected_nodes.
  destruct (@np_max_ok (degree_vector adj)) as [mx Hmx].
  { intros E. rewrite E in Hm. destruct m; discriminate. }
  rewrite Hmx. cbn [bind]. destruct (np_max_spec _ Hmx) as [Hin Hall].
  rewrite Forall_forall in Hall.
  assert (mx = dm).
  { apply In_nth_error in Hin as [k Hk].
    destruct (Nat.eq_dec k m) as [->|Hne]; [congruence|].
    pose proof (Hothers k mx Hne Hk).
    pose proof (Hall dm (nth_error_In _ _ Hm)). lia. }
  subst mx. f_equal. apply where_eq_unique; [exact Hm|].
  intros k Hne Hk. pose proof (Hothers k dm Hne Hk). lia.
Qed.

Lemma unique_min_sdc (adj : Np.matrix) (m : nat) (dm : Z) :
  nth_error (degree_vector adj) m = Some dm ->
  (forall k d, k <> m -> nth_error (degree_vector adj) k = Some d ->
               (dm < d)%Z) ->
  sdc_of adj = Ok [m].
Proof.
  intros Hm Hothers. unfold sdc_of.
  change (distance_vector adj) with (degree_vector adj).
  destruct (@np_min_ok (degree_vector adj)) as [mn Hmn].
  { intros E. rewrite E in Hm. destruct m; discriminate. }
  rewrite Hmn. cbn [bind]. destruct (np_min_spec _ Hmn) as [Hin Hall].
  rewrite Forall_forall in Hall.
  assert (mn = dm).
  { apply In_nth_error in Hin as [k Hk].
    destruct (Nat.eq_dec k m) as [->|Hne]; [congruence|].
    pose proof (Hothers k mn Hne Hk).
    pose proof (Hall dm (nth_error_In _ _ Hm)). lia. }
  subst mn. f_equal. apply where_eq_unique; [exact Hm|].
  intros k Hne Hk. pose proof (Hothers k dm Hne Hk). lia.
Qed.

(** ** The singleton rule *)

(** C1: in a snapshot in which exactly one node, at index [m], attains the
    maximum degree, the candidate set is the singleton of [m] and the anchor
    the pipeline resolves is that node, whatever the rest of the topology. *)
Theorem singleton_candidate_is_anchor {Node : Type}
    (Node_eq_dec : forall x y : Node, {x = y} + {x <> y})
    (nodes : list Node) (connectionsTo : Node -> list Node -> list Node)
    (adj : Np.matrix) (m : nat) (node : Node) (dm : Z) :
  adjacency_matrix Node_eq_dec nodes connectionsTo = Ok adj ->
  nth_error nodes m = Some node ->
  nth_error (degree_vector adj) m = Some dm ->
  (forall k d, k <> m -> nth_error (degree_vector adj) k = Some d ->
               (d < dm)%Z) ->
  most_connected_nodes adj = Ok [m] /\
  RI_SDN Node_eq_dec nodes connectionsTo = Ok node.
Proof.
  intros Hadj Hnode Hm Hothers.
  pose proof (@unique_max_smc adj m dm Hm Hothers) as Hsmc.
  split; [exact Hsmc|].
  unfold RI_SDN. rewrite Hadj. cbn [bind]. rewrite Hsmc. cbn [bind].
  rewrite determine_anchor_stages. cbn [length Nat.eqb getitem nth_error bind].
  unfold getitem. rewrite Hnode. reflexivity.
Qed.

(** Scenario A: the star 0-1, 0-2, 0-3. *)
Lemma singleton_candidate_is_anchor_witness :
  most_connected_nodes [[0; 1; 1; 1]; [1; 0; 0; 0]; [1; 0; 0; 0]; [1; 0; 0; 0]]%Z
    = Ok [0] /\
  RI_SDN Nat.eq_dec (seq 0 4) (probe [(0, 1); (0, 2); (0, 3)]) = Ok 0.
Proof.
  apply (@singleton_candidate_is_anchor nat Nat.eq_dec (seq 0 4)
           (probe [(0, 1); (0, 2); (0, 3)])
           [[0; 1; 1; 1]; [1; 0; 0; 0]; [1; 0; 0; 0]; [1; 0; 0; 0]]%Z
           0 0 3%Z).
  - reflexivity.
  - reflexivity.
  - reflexivity.
  - intros [|[|[|[|k]]]] d Hk Hd; try lia; simpl in Hd;
      try (injection Hd as <-; lia).
    destruct k; discriminate.
Defined.

(** ** The internal-disconnection rule *)

Lemma first_disconnected_pair_sound (smc : list nat) (adj : Np.matrix)
    (i j : nat) :
  first_disconnected_pair smc adj = Some (i, j) ->
  In i smc /\ In j smc /\ i <> j /\ entry adj i j = 0%Z.
Proof.
  intros H. apply find_some in H as [Hin Hdis].
  apply in_prod_iff in Hin as [Hi Hj]. unfold disconnected in Hdis.
  apply andb_true_iff in Hdis as [Hne Hz].
  apply negb_true_iff, Nat.eqb_neq in Hne. apply Z.eqb_eq in Hz. auto.
Qed.

(** Every pair that the scan meets before the first disconnected one is a
    pair of equal or connected candidates. *)
Lemma first_disconnected_pair_first (smc : list nat) (adj : Np.matrix)
    (i j : nat) :
  first_disconnected_pair smc adj = Some (i, j) ->
  exists (before rest : list (nat * nat)),
    list_prod smc smc = before ++ (i, j) :: rest /\
    forall i' j', In (i', j') before -> i' = j' \/ entry adj i' j' <> 0%Z.
Proof.
  unfold first_disconnected_pair.
  induction (list_prod smc smc) as [|[a b] l IH]; simpl; [discriminate|].
  destruct (disconnected adj a b) eqn:E.
  - intros H. injection H as <- <-. exists [], l. split; [reflexivity|].
    intros ? ? [].
  - intros H. destruct (IH H) as (before & rest & -> & Hbefore).
    exists ((a, b) :: before), rest. split; [reflexivity|].
    intros i' j' [Heq|Hin]; [|apply Hbefore, Hin].
    injection Heq as <- <-.
    unfold disconnected in E. apply andb_false_iff in E as [E|E].
    + left. apply negb_false_iff, Nat.eqb_eq in E. exact E.
    + right. apply Z.eqb_neq, E.
Qed.

Lemma not_clique_has_pair (smc : list nat) (adj : Np.matrix) :
  ~ clique smc adj -> exists i j, first_disconnected_pair smc adj = Some (i, j).
Proof.
  intros Hncl.
  destruct (first_disconnected_pair smc adj) as [[i j]|] eqn:E; [eauto|].
  exfalso. apply Hncl. intros i j Hi Hj Hne Hz.
  pose proof (find_none _ _ E (i, j)) as H. cbv beta iota in H.
  unfold disconnected in H. rewrite Hz in H.
  apply Nat.eqb_neq in Hne. rewrite Hne in H. simpl in H.
  specialize (H ltac:(apply in_prod; assumption)). discriminate.
Qed.

(** C2: for a candidate set of at least two in-range members that is not a
    clique, the anchor is the node at the outer index [i] of the first
    ordered pair ([i], [j]) of distinct candidates, both loops running
    through the candidates in their order, whose matrix entry is zero.
    Scenario B (links 0-1 and 2-3, anchor node 0) is the instance that
    follows the proof. *)
Theorem first_disconnected_pair_is_anchor {Node : Type} (nodes : list Node)
    (smc : list nat) (adj : Np.matrix) :
  2 <= length smc ->
  square (length adj) adj ->
  Forall (fun k => k < length adj) smc ->
  Forall (fun k => k < length nodes) smc ->
  ~ clique smc adj ->
  exists i j node,
    first_disconnected_pair smc adj = Some (i, j) /\
    In i smc /\ In j smc /\ i <> j /\ entry adj i j = 0%Z /\
    nth_error nodes i = Some node /\
    determine_anchor nodes smc adj = Ok node.
Proof.
  intros Hlen Hsq Hadj Hnodes Hncl.
  destruct (not_clique_has_pair Hncl) as (i & j & Hfirst).
  destruct (first_disconnected_pair_sound _ _ Hfirst) as (Hi & Hj & Hne & Hz).
  rewrite Forall_forall in Hnodes.
  destruct (nth_error nodes i) as [node|] eqn:Enode;
    [|apply nth_error_None in Enode; specialize (Hnodes i Hi); lia].
  exists i, j, node. repeat (split; [assumption|]).
  rewrite determine_anchor_stages.
  destruct (Nat.eqb_spec (length smc) 1) as [|_]; [lia|].
  rewrite (scan_pairs_spec nodes Hsq Hadj), Hfirst.
  unfold getitem. rewrite Enode. reflexivity.
Qed.

(** Scenario B: the two disjoint links 0-1 and 2-3. *)
Lemma first_disconnected_pair_is_anchor_witness :
  adjacency_matrix Nat.eq_dec (seq 0 4) (probe [(0, 1); (2, 3)])
    = Ok [[0; 1; 0; 0]; [1; 0; 0; 0]; [0; 0; 0; 1]; [0; 0; 1; 0]]%Z /\
  most_connected_nodes
    [[0; 1; 0; 0]; [1; 0; 0; 0]; [0; 0; 0; 1]; [0; 0; 1; 0]]%Z
    = Ok [0; 1; 2; 3] /\
  RI_SDN Nat.eq_dec (seq 0 4) (probe [(0, 1); (2, 3)]) = Ok 0 /\
  exists i j node,
    first_disconnected_pair [0; 1; 2; 3]
      [[0; 1; 0; 0]; [1; 0; 0; 0]; [0; 0; 0; 1]; [0; 0; 1; 0]]%Z
      = Some (i, j) /\
    In i [0; 1; 2; 3] /\ In j [0; 1; 2; 3] /\ i <> j /\
    entry [[0; 1; 0; 0]; [1; 0; 0; 0]; [0; 0; 0; 1]; [0; 0; 1; 0]]%Z i j
      = 0%Z /\
    nth_error (seq 0 4) i = Some node /\
    determine_anchor (seq 0 4) [0; 1; 2; 3]
      [[0; 1; 0; 0]; [1; 0; 0; 0]; [0; 0; 0; 1]; [0; 0; 1; 0]]%Z = Ok node.
Proof.
  split; [reflexivity|]. split; [reflexivity|]. split; [reflexivity|].
  apply (@first_disconnected_pair_is_anchor nat (seq 0 4) [0; 1; 2; 3]
           [[0; 1; 0; 0]; [1; 0; 0; 0]; [0; 0; 0; 1]; [0; 0; 1; 0]]%Z).
  - simpl. lia.
  - split; [reflexivity|]. repeat constructor.
  - simpl. repeat constructor.
  - simpl. repeat constructor.
  - intros H. apply (H 0 2); simpl; auto.
Defined.

Example scenario_B_first_pair :
  first_disconnected_pair [0; 1; 2; 3]
    [[0; 1; 0; 0]; [1; 0; 0; 0]; [0; 0; 0; 1]; [0; 0; 1; 0]]%Z = Some (0, 2).
Proof. reflexivity. Qed.

(** ** The fallback stages *)

Lemma sdc_of_ok (adj : Np.matrix) :
  adj <> [] ->
  exists sdc m, sdc_of adj = Ok sdc /\ sdc <> [] /\
    Forall (fun i => i < length adj) sdc /\
    forall i, In i sdc -> nth_error (Np.sum_axis1 adj) i = Some m.
Proof.
  intros Hne. unfold sdc_of, distance_vector.
  destruct (@np_min_ok (Np.sum_axis1 adj)) as [m Hm].
  { destruct adj; [congruence|discriminate]. }
  rewrite Hm. cbn [bind]. destruct (np_min_spec _ Hm) as [Hin _].
  exists (Np.where_eq (Np.sum_axis1 adj) m), m.
  split; [reflexivity|]. split; [apply where_eq_nonempty, Hin|].
  split.
  - rewrite <- (sum_axis1_length adj). apply where_eq_bound.
  - intros i Hi. apply where_eq_In, Hi.
Qed.

Lemma take_rows_sums (adj : Np.matrix) (m : Z) : forall idx,
  (forall i, In i idx -> nth_error (Np.sum_axis1 adj) i = Some m) ->
  exists rows, Np.take adj idx = Ok rows /\
               Np.sum_axis1 rows = repeat m (length idx).
Proof.
  induction idx as [|i idx IH]; intros H.
  - exists []. split; reflexivity.
  - destruct IH as (rows & Erows & Esum).
    { intros k Hk. apply H. right. exact Hk. }
    specialize (H i (or_introl eq_refl)).
    unfold Np.sum_axis1 in H. rewrite nth_error_map in H.
    destruct (nth_error adj i) as [row|] eqn:Erow; [|discriminate].
    injection H as Hrow.
    exists (row :: rows). cbn [Np.take]. unfold getitem. rewrite Erow.
    cbn [bind]. rewrite Erows. cbn [bind]. split; [reflexivity|].
    cbn [Np.sum_axis1 map length repeat]. f_equal; [exact Hrow|exact Esum].
Qed.

Lemma fold_max_repeat (m : Z) (k : nat) : fold_left Z.max (repeat m k) m = m.
Proof.
  induction k as [|k IH]; simpl; [reflexivity|]. rewrite Z.max_id. exact IH.
Qed.

(** Lines 146-149: once the secondary stage is entered with the SDC that
    lines 139-141 computed, every secondary score equals the minimum
    distance, position 0 attains the maximum, and the node returned is
    [nodes[0]]. *)
Lemma resolve_sdc_secondary {Node : Type} (nodes : list Node)
    (adj : Np.matrix) (sdc : list nat) :
  sdc_of adj = Ok sdc -> length sdc <> 1 ->
  resolve_sdc nodes sdc adj = getitem nodes 0.
Proof.
  intros Hsdc Hlen.
  assert (Hne : adj <> []) by (intros ->; discriminate).
  destruct (sdc_of_ok Hne) as (sdc' & m & E & Hnonempty & _ & Hall).
  rewrite Hsdc in E. injection E as <-.
  destruct (@take_rows_sums adj m sdc Hall) as (rows & Erows & Esum).
  unfold resolve_sdc. destruct (Nat.eqb_spec (length sdc) 1) as [|_]; [lia|].
  rewrite Erows. cbn [bind]. rewrite Esum.
  destruct sdc as [|a sdc]; [congruence|].
  cbn [length repeat Np.max]. rewrite fold_max_repeat. cbn [bind].
  unfold Np.where_eq. cbn [Np.where_eq_from]. rewrite Z.eqb_refl.
  reflexivity.
Qed.

Lemma fallback_returns {Node : Type} (nodes : list Node) (adj : Np.matrix) :
  adj <> [] -> length adj <= length nodes ->
  exists node, fallback nodes adj = Ok node /\ In node nodes.
Proof.
  intros Hne Hlen.
  destruct (sdc_of_ok Hne) as (sdc & m & E & Hnonempty & Hbound & _).
  assert (Hget : forall i, i < length nodes ->
                   exists x, getitem nodes i = Ok x /\ In x nodes).
  { intros i Hi. unfold getitem.
    destruct (nth_error nodes i) as [x|] eqn:Ex.
    - exists x. split; [reflexivity|]. eapply nth_error_In, Ex.
    - apply nth_error_None in Ex. lia. }
  unfold fallback. rewrite E. cbn [bind].
  destruct (Nat.eq_dec (length sdc) 1) as [H1|H1].
  - destruct sdc as [|i [|? ?]]; try discriminate.
    inversion Hbound; subst. unfold resolve_sdc. cbn.
    apply Hget. lia.
  - rewrite (@resolve_sdc_secondary Node nodes adj sdc E H1). apply Hget.
    destruct adj; [congruence|simpl in Hlen; lia].
Qed.

(** ** The clique fallback *)

(** When the candidate set has at least two members forming a clique and
    exactly one node, at index [m], has the minimum degree, the anchor the
    pipeline resolves is that node. *)
Theorem clique_fallback_unique_minimum {Node : Type}
    (Node_eq_dec : forall x y : Node, {x = y} + {x <> y})
    (nodes : list Node) (connectionsTo : Node -> list Node -> list Node)
    (adj : Np.matrix) (smc : list nat) (m : nat) (node : Node) (dm : Z) :
  adjacency_matrix Node_eq_dec nodes connectionsTo = Ok adj ->
  most_connected_nodes adj = Ok smc ->
  2 <= length smc ->
  clique smc adj ->
  nth_error nodes m = Some node ->
  nth_error (degree_vector adj) m = Some dm ->
  (forall k d, k <> m -> nth_error (degree_vector adj) k = Some d ->
               (dm < d)%Z) ->
  RI_SDN Node_eq_dec nodes connectionsTo = Ok node.
Proof.
  intros Hadj Hsmc Hlen Hcl Hnode Hm Hothers.
  destruct (adjacency_matrix_spec Node_eq_dec nodes connectionsTo)
    as (adj' & E & Hsq & _).
  rewrite Hadj in E. injection E as <-.
  assert (Hrange : Forall (fun i => i < length nodes) smc).
  { unfold most_connected_nodes in Hsmc.
    destruct (Np.max (degree_vector adj)) as [mx|] eqn:Emx; [|discriminate].
    cbn [bind] in Hsmc. injection Hsmc as <-.
    destruct Hsq as [Hrows _]. rewrite <- Hrows.
    rewrite <- (sum_axis1_length adj). apply where_eq_bound. }
  unfold RI_SDN. rewrite Hadj. cbn [bind]. rewrite Hsmc. cbn [bind].
  rewrite determine_anchor_stages.
  destruct (Nat.eqb_spec (length smc) 1) as [|_]; [lia|].
  rewrite (@scan_pairs_spec Node nodes adj (length nodes) Hsq smc Hrange),
    (@clique_no_pair adj smc Hcl).
  cbn [bind]. unfold fallback.
  rewrite (@unique_min_sdc adj m dm Hm Hothers). cbn [bind].
  unfold resolve_sdc. cbn [length Nat.eqb getitem nth_error bind].
  unfold getitem. rewrite Hnode. reflexivity.
Qed.

(** One link 0-1 and an isolated node 2: the candidates 0 and 1 form a
    clique and node 2 alone has the minimum degree. *)
Lemma clique_fallback_unique_minimum_witness :
  RI_SDN Nat.eq_dec (seq 0 3) (probe [(0, 1)]) = Ok 2.
Proof.
  apply (@clique_fallback_unique_minimum nat Nat.eq_dec (seq 0 3)
           (probe [(0, 1)]) [[0; 1; 0]; [1; 0; 0]; [0; 0; 0]]%Z
           [0; 1] 2 2 0%Z).
  - reflexivity.
  - reflexivity.
  - simpl. lia.
  - intros i j Hi Hj Hne. simpl in Hi, Hj.
    decompose [or] Hi; decompose [or] Hj; subst; try contradiction;
      try lia; discriminate.
  - reflexivity.
  - reflexivity.
  - intros [|[|[|k]]] d Hk Hd; try lia; simpl in Hd;
      try (injection Hd as <-; lia).
    destruct k; discriminate.
Defined.

(** With a self-link the degrees of two nodes can differ; the candidate
    set is then a singleton, the singleton rule answers first, and the
    anchor is the node of maximum degree, not the one of minimum degree. *)
Lemma distinct_degrees_anchor_is_maximum :
  adjacency_matrix Nat.eq_dec (seq 0 2) (probe [(0, 0); (0, 1)])
    = Ok [[1; 1]; [1; 0]]%Z /\
  degree_vector [[1; 1]; [1; 0]]%Z = [2; 1]%Z /\
  most_connected_nodes [[1; 1]; [1; 0]]%Z = Ok [0] /\
  clique [0] [[1; 1]; [1; 0]]%Z /\
  sdc_of [[1; 1]; [1; 0]]%Z = Ok [1] /\
  RI_SDN Nat.eq_dec (seq 0 2) (probe [(0, 0); (0, 1)]) = Ok 0 /\
  RI_SDN Nat.eq_dec (seq 0 2) (probe [(0, 0); (0, 1)]) <> Ok 1.
Proof.
  repeat (split; [reflexivity|]). split.
  - intros i j [<-|[]] [<-|[]] Hne. contradiction.
  - repeat (split; [reflexivity|]). discriminate.
Qed.

(** ** What [determine_anchor] does on ill-formed arguments *)

(** C9, as the code has it: [determine_anchor] validates nothing.  With an
    empty candidate set and a matrix of at least one row (and no more rows
    than nodes) both loops are skipped and the node chosen by the fallback
    stages is returned; with a singleton candidate set the node at that
    index is returned whatever the matrix is.  The only errors are those of
    numpy and of list indexing, such as the minimum of an empty vector. *)
Theorem determine_anchor_validates_nothing {Node : Type} (nodes : list Node)
    (adj : Np.matrix) (i : nat) (node : Node) :
  adj <> [] ->
  length adj <= length nodes ->
  nth_error nodes i = Some node ->
  (exists anchor, determine_anchor nodes [] adj = Ok anchor /\
                  fallback nodes adj = Ok anchor /\ In anchor nodes) /\
  (forall adj' : Np.matrix, determine_anchor nodes [i] adj' = Ok node) /\
  determine_anchor nodes [] [] = Raise ValueError.
Proof.
  intros Hne Hlen Hnode. split; [|split].
  - destruct (fallback_returns nodes Hne Hlen) as (anchor & E & Hin).
    exists anchor. rewrite determine_anchor_stages. cbn. auto.
  - intros adj'. rewrite determine_anchor_stages.
    cbn [length Nat.eqb getitem nth_error bind].
    unfold getitem. rewrite Hnode. reflexivity.
  - reflexivity.
Qed.

Lemma determine_anchor_validates_nothing_witness :
  (exists anchor, determine_anchor [10; 11] [] [[0; 1]; [1; 0]]%Z = Ok anchor /\
                  fallback [10; 11] [[0; 1]; [1; 0]]%Z = Ok anchor /\
                  In anchor [10; 11]) /\
  (forall adj' : Np.matrix, determine_anchor [10; 11] [1] adj' = Ok 11) /\
  determine_anchor [10; 11] [] [] = Raise ValueError.
Proof.
  apply (@determine_anchor_validates_nothing nat [10; 11]
           [[0; 1]; [1; 0]]%Z 1 11).
  - discriminate.
  - simpl. lia.
  - reflexivity.
Defined.

(** The claim C9 as stated fails: an empty candidate set, and a node list
    longer than the matrix, both yield an anchor. *)
Lemma determine_anchor_returns_unchecked :
  determine_anchor [10] [] [[0]]%Z = Ok 10 /\
  determine_anchor [10; 11] [0] [[0]]%Z = Ok 10 /\
  determine_anchor [10; 11; 12] [0; 1] [[0; 1]; [1; 0]]%Z = Ok 10.
Proof. repeat split. Qed.

(** ** The secondary-connectivity stage *)

(** C3 fails on the code.  On the path 2 - 0 - 1 - 3 the candidates 0 and 1
    form a clique, SDC is {2, 3}, both members have secondary score 1, and
    the first member of SDC attaining the maximum is node 2; the code
    returns node 0, because line 149 uses the position found in the scores
    of SDC as an index into [nodes] instead of into SDC. *)
Theorem secondary_stage_returns_position :
  adjacency_matrix Nat.eq_dec (seq 0 4) (probe [(0, 2); (0, 1); (1, 3)])
    = Ok [[0; 1; 1; 0]; [1; 0; 0; 1]; [1; 0; 0; 0]; [0; 1; 0; 0]]%Z /\
  most_connected_nodes
    [[0; 1; 1; 0]; [1; 0; 0; 1]; [1; 0; 0; 0]; [0; 1; 0; 0]]%Z = Ok [0; 1] /\
  first_disconnected_pair [0; 1]
    [[0; 1; 1; 0]; [1; 0; 0; 1]; [1; 0; 0; 0]; [0; 1; 0; 0]]%Z = None /\
  sdc_of [[0; 1; 1; 0]; [1; 0; 0; 1]; [1; 0; 0; 0]; [0; 1; 0; 0]]%Z
    = Ok [2; 3] /\
  secondary_choice [2; 3]
    [[0; 1; 1; 0]; [1; 0; 0; 1]; [1; 0; 0; 0]; [0; 1; 0; 0]]%Z = Some 2 /\
  RI_SDN Nat.eq_dec (seq 0 4) (probe [(0, 2); (0, 1); (1, 3)]) = Ok 0.
Proof. repeat split. Qed.

(** ** The anchor need not be a candidate *)

(** C10: for some snapshot the anchor is not a member of the candidate set.
    On the path 0 - 1 - 2 - 3 the candidates are 1 and 2, a clique, and the
    fallback stages return the leaf 0. *)
Theorem anchor_outside_candidates :
  exists (n : nat) (edges : list (nat * nat)) (adj : Np.matrix)
         (smc : list nat) (anchor : nat),
    adjacency_matrix Nat.eq_dec (seq 0 n) (probe edges) = Ok adj /\
    most_connected_nodes adj = Ok smc /\
    clique smc adj /\
    determine_anchor (seq 0 n) smc adj = Ok anchor /\
    RI_SDN Nat.eq_dec (seq 0 n) (probe edges) = Ok anchor /\
    nth_error (seq 0 n) anchor = Some anchor /\
    ~ In anchor smc /\
    (n = 4 /\ edges = [(0, 1); (1, 2); (2, 3)] /\ smc = [1; 2] /\ anchor = 0).
Proof.
  exists 4, [(0, 1); (1, 2); (2, 3)],
    [[0; 1; 0; 0]; [1; 0; 1; 0]; [0; 1; 0; 1]; [0; 0; 1; 0]]%Z, [1; 2], 0.
  split; [reflexivity|]. split; [reflexivity|]. split.
  { intros i j Hi Hj Hne. simpl in Hi, Hj.
    decompose [or] Hi; decompose [or] Hj; subst; try contradiction;
      try lia; discriminate. }
  split; [reflexivity|]. split; [reflexivity|]. split; [reflexivity|].
  split; [|repeat split].
  simpl. intros [H|[H|[]]]; discriminate.
Qed.

(** With one link 0-1 and an isolated node 2 the candidates are 0 and 1 and
    the anchor is node 2. *)
Example anchor_outside_candidates_isolated :
  most_connected_nodes [[0; 1; 0]; [1; 0; 0]; [0; 0; 0]]%Z = Ok [0; 1] /\
  RI_SDN Nat.eq_dec (seq 0 3) (probe [(0, 1)]) = Ok 2 /\
  ~ In 2 [0; 1].
Proof.
  split; [reflexivity|]. split; [reflexivity|].
  simpl. intros [H|[H|[]]]; discriminate.
Qed.

(** Scenario C: the triangle. *)
Example scenario_C_triangle :
  most_connected_nodes [[0; 1; 1]; [1; 0; 1]; [1; 1; 0]]%Z = Ok [0; 1; 2] /\
  sdc_of [[0; 1; 1]; [1; 0; 1]; [1; 1; 0]]%Z = Ok [0; 1; 2] /\
  RI_SDN Nat.eq_dec (seq 0 3) (probe [(0, 1); (0, 2); (1, 2)]) = Ok 0.
Proof. repeat split. Qed.

(** ** The pipeline never fails on a non-empty snapshot *)

Lemma getitem_member {A : Type} (l : list A) (i : nat) :
  i < length l -> exists x, getitem l i = Ok x /\ In x l.
Proof.
  intros Hi. unfold getitem. destruct (nth_error l i) as [x|] eqn:Ex.
  - exists x. split; [reflexivity|]. eapply nth_error_In, Ex.
  - apply nth_error_None in Ex. lia.
Qed.

Lemma most_connected_nodes_ok (adj : Np.matrix) :
  adj <> [] ->
  exists smc, most_connected_nodes adj = Ok smc /\ smc <> [] /\
              Forall (fun i => i < length adj) smc.
Proof.
  intros Hne. unfold most_connected_nodes, degree_vector.
  destruct (@np_max_ok (Np.sum_axis1 adj)) as [m Hm].
  { destruct adj; [congruence|discriminate]. }
  rewrite Hm. cbn [bind]. destruct (np_max_spec _ Hm) as [Hin _].
  eexists. split; [reflexivity|]. split; [apply where_eq_nonempty, Hin|].
  rewrite <- (sum_axis1_length adj). apply where_eq_bound.
Qed.

(** On a square matrix with at least one row, in-range candidates and a
    node for every row, [determine_anchor] raises nothing and returns one of
    the nodes: no subscript of lines 131-149 can leave its range. *)
Theorem determine_anchor_returns_node {Node : Type} (nodes : list Node)
    (smc : list nat) (adj : Np.matrix) :
  adj <> [] ->
  square (length adj) adj ->
  length adj <= length nodes ->
  Forall (fun k => k < length adj) smc ->
  exists anchor, determine_anchor nodes smc adj = Ok anchor /\ In anchor nodes.
Proof.
  intros Hne Hsq Hlen Hsmc. rewrite determine_anchor_stages.
  pose proof Hsmc as Hall. rewrite Forall_forall in Hall.
  destruct (Nat.eqb_spec (length smc) 1) as [H1|H1].
  - destruct smc as [|i [|? ?]]; try discriminate. cbn.
    apply getitem_member. specialize (Hall i (or_introl eq_refl)). lia.
  - rewrite (@scan_pairs_spec Node nodes adj (length adj) Hsq smc Hsmc).
    destruct (first_disconnected_pair smc adj) as [[i j]|] eqn:E.
    + destruct (first_disconnected_pair_sound _ _ E) as (Hi & _).
      destruct (@getitem_member Node nodes i) as (x & Ex & Hx).
      { specialize (Hall i Hi). lia. }
      exists x. rewrite Ex. cbn. auto.
    + cbn [bind]. apply fallback_returns; assumption.
Qed.

Lemma determine_anchor_returns_node_witness :
  exists anchor,
    determine_anchor [10; 11; 12] [0; 1; 2] [[0; 1; 1]; [1; 0; 1]; [1; 1; 0]]%Z
      = Ok anchor /\ In anchor [10; 11; 12].
Proof.
  apply (@determine_anchor_returns_node nat [10; 11; 12] [0; 1; 2]
           [[0; 1; 1]; [1; 0; 1]; [1; 1; 0]]%Z).
  - discriminate.
  - split; [reflexivity|]. repeat constructor.
  - simpl. lia.
  - simpl. repeat constructor.
Defined.

(** [RI_SDN] returns an anchor, one of the nodes, for every non-empty node
    list and every connectivity query; on the empty node list it raises the
    ValueError of [np.max]. *)
Theorem RI_SDN_returns_unless_empty {Node : Type}
    (Node_eq_dec : forall x y : Node, {x = y} + {x <> y})
    (nodes : list Node) (connectionsTo : Node -> list Node -> list Node) :
  match nodes with
  | [] => RI_SDN Node_eq_dec nodes connectionsTo = Raise ValueError
  | _ :: _ => exists anchor,
      RI_SDN Node_eq_dec nodes connectionsTo = Ok anchor /\ In anchor nodes
  end.
Proof.
  destruct nodes as [|x nodes]; [reflexivity|].
  destruct (adjacency_matrix_spec Node_eq_dec (x :: nodes) connectionsTo)
    as (adj & E & Hsq & _).
  assert (Hlen : length adj = length (x :: nodes)) by apply Hsq.
  assert (Hne : adj <> []) by (intros ->; discriminate).
  destruct (most_connected_nodes_ok Hne) as (smc & Esmc & _ & Hrange).
  unfold RI_SDN. rewrite E. cbn [bind]. rewrite Esmc. cbn [bind].
  apply determine_anchor_returns_node; try assumption.
  - rewrite Hlen. exact Hsq.
  - rewrite Hlen. apply Nat.le_refl.
Qed.

(** ** Degrees of the built matrix *)

(** Row [i] of the built matrix lists, node by node, whether the query of
    [nodes[i]] reports it. *)
Lemma adjacency_matrix_rows {Node : Type}
    (Node_eq_dec : forall x y : Node, {x = y} + {x <> y})
    (nodes : list Node) (connectionsTo : Node -> list Node -> list Node)
    (adj : Np.matrix) :
  adjacency_matrix Node_eq_dec nodes connectionsTo = Ok adj ->
  adj = map (fun node =>
               map (linked Node_eq_dec nodes connectionsTo node) nodes) nodes.
Proof.
  intros Hadj.
  destruct (adjacency_matrix_spec Node_eq_dec nodes connectionsTo)
    as (adj' & E & Hsq & Hentry).
  rewrite Hadj in E. injection E as <-.
  apply (nth_ext _ _ [] []).
  - rewrite length_map. apply Hsq.
  - intros i Hi. assert (Hi' : i < length nodes) by (destruct Hsq; lia).
    destruct (nth_error nodes i) as [node|] eqn:Enode;
      [|apply nth_error_None in Enode; lia].
    rewrite (nth_error_nth (map _ nodes) i []
               (map_nth_error _ i nodes Enode)).
    apply (nth_ext _ _ 0%Z 0%Z).
    + rewrite (square_row Hsq Hi'), length_map. reflexivity.
    + intros j Hj. rewrite (square_row Hsq Hi') in Hj.
      destruct (nth_error nodes j) as [nb|] eqn:Enb;
        [|apply nth_error_None in Enb; lia].
      rewrite (nth_error_nth (map _ nodes) j 0%Z
                 (map_nth_error _ j nodes Enb)).
      apply (Hentry i j node nb Enode Enb).
Qed.

Lemma fold_add_shift (l : list Z) : forall a,
  fold_left Z.add l a = (a + fold_left Z.add l 0)%Z.
Proof.
  induction l as [|x l IH]; intros a; simpl; [lia|].
  rewrite (IH (a + x)%Z), (IH x). lia.
Qed.

Lemma sum_indicator {A : Type} (p : A -> bool) (l : list A) :
  fold_left Z.add (map (fun x => if p x then 1%Z else 0%Z) l) 0%Z
  = Z.of_nat (length (filter p l)).
Proof.
  induction l as [|x l IH]; [reflexivity|]. cbn [map fold_left filter].
  rewrite fold_add_shift, IH. destruct (p x); cbn [length]; lia.
Qed.

(** The degree of [nodes[i]] is the number of positions of the node list
    whose node the query of [nodes[i]] reports (a node listed twice counts
    twice, and the node itself counts when it is reported); it lies between
    0 and the number of nodes. *)
Theorem degree_counts_reported_nodes {Node : Type}
    (Node_eq_dec : forall x y : Node, {x = y} + {x <> y})
    (nodes : list Node) (connectionsTo : Node -> list Node -> list Node)
    (adj : Np.matrix) (i : nat) (node : Node) :
  adjacency_matrix Node_eq_dec nodes connectionsTo = Ok adj ->
  nth_error nodes i = Some node ->
  exists d,
    nth_error (degree_vector adj) i = Some d /\
    d = Z.of_nat (length (filter
          (fun neighbor =>
             if in_dec Node_eq_dec neighbor (connectionsTo node nodes)
             then true else false) nodes)) /\
    (0 <= d <= Z.of_nat (length nodes))%Z.
Proof.
  intros Hadj Hnode. rewrite (adjacency_matrix_rows _ _ _ Hadj).
  eexists. split; [|split; [reflexivity|]].
  - unfold degree_vector, Np.sum_axis1. rewrite map_map.
    rewrite (map_nth_error _ i nodes Hnode). f_equal.
    unfold linked.
    rewrite <- (sum_indicator
                  (fun neighbor =>
                     if in_dec Node_eq_dec neighbor (connectionsTo node nodes)
                     then true else false) nodes).
    f_equal. apply map_ext. intros nb.
    destruct (in_dec Node_eq_dec nb (connectionsTo node nodes)); reflexivity.
  - pose proof (filter_length_le
                  (fun neighbor =>
                     if in_dec Node_eq_dec neighbor (connectionsTo node nodes)
                     then true else false) nodes). lia.
Qed.

Lemma degree_counts_reported_nodes_witness :
  exists d,
    nth_error (degree_vector [[0; 1; 1]; [1; 0; 0]; [1; 0; 0]]%Z) 0 = Some d /\
    d = Z.of_nat (length (filter
          (fun neighbor =>
             if in_dec Nat.eq_dec neighbor (probe [(0, 1); (0, 2)] 0 (seq 0 3))
             then true else false) (seq 0 3))) /\
    (0 <= d <= Z.of_nat (length (seq 0 3)))%Z.
Proof.
  apply (@degree_counts_reported_nodes nat Nat.eq_dec (seq 0 3)
           (probe [(0, 1); (0, 2)]) [[0; 1; 1]; [1; 0; 0]; [1; 0; 0]]%Z 0 0).
  - reflexivity.
  - reflexivity.
Defined.

(** ** Where the anchor comes from *)

Lemma smc_member_has_maximum_degree (adj : Np.matrix) (smc : list nat)
    (i : nat) :
  most_connected_nodes adj = Ok smc -> In i smc ->
  exists d, nth_error (degree_vector adj) i = Some d /\
            Forall (fun d' => (d' <= d)%Z) (degree_vector adj).
Proof.
  unfold most_connected_nodes. intros Hsmc Hi.
  destruct (Np.max (degree_vector adj)) as [m|] eqn:Em; [|discriminate].
  cbn [bind] in Hsmc. injection Hsmc as <-.
  apply where_eq_In in Hi. destruct (np_max_spec _ Em) as [_ Hall]. eauto.
Qed.

Lemma smc_in_range {Node : Type}
    (Node_eq_dec : forall x y : Node, {x = y} + {x <> y})
    (nodes : list Node) (connectionsTo : Node -> list Node -> list Node)
    (adj : Np.matrix) (smc : list nat) :
  adjacency_matrix Node_eq_dec nodes connectionsTo = Ok adj ->
  most_connected_nodes adj = Ok smc ->
  square (length nodes) adj /\ Forall (fun i => i < length nodes) smc.
Proof.
  intros Hadj Hsmc.
  destruct (adjacency_matrix_spec Node_eq_dec nodes connectionsTo)
    as (adj' & E & Hsq & _).
  rewrite Hadj in E. injection E as <-. split; [exact Hsq|].
  unfold most_connected_nodes in Hsmc.
  destruct (Np.max (degree_vector adj)) as [mx|] eqn:Emx; [|discriminate].
  cbn [bind] in Hsmc. injection Hsmc as <-.
  destruct Hsq as [Hrows _]. rewrite <- Hrows.
  rewrite <- (sum_axis1_length adj). apply where_eq_bound.
Qed.

(** Unless the candidates are at least two and form a clique, the anchor of
    the pipeline is one of the candidates, hence a node of maximum degree:
    only the fallback stages can leave the candidate set. *)
Theorem anchor_is_candidate_unless_clique {Node : Type}
    (Node_eq_dec : forall x y : Node, {x = y} + {x <> y})
    (nodes : list Node) (connectionsTo : Node -> list Node -> list Node)
    (adj : Np.matrix) (smc : list nat) :
  adjacency_matrix Node_eq_dec nodes connectionsTo = Ok adj ->
  most_connected_nodes adj = Ok smc ->
  length smc = 1 \/ ~ clique smc adj ->
  exists i node d,
    In i smc /\ nth_error nodes i = Some node /\
    nth_error (degree_vector adj) i = Some d /\
    Forall (fun d' => (d' <= d)%Z) (degree_vector adj) /\
    RI_SDN Node_eq_dec nodes connectionsTo = Ok node.
Proof.
  intros Hadj Hsmc Hcase.
  destruct (smc_in_range _ _ _ Hadj Hsmc) as [Hsq Hrange].
  assert (Hfound : exists i node, In i smc /\ nth_error nodes i = Some node /\
                     determine_anchor nodes smc adj = Ok node).
  { pose proof Hrange as Hall. rewrite Forall_forall in Hall.
    assert (Hnode : forall i, In i smc ->
                      exists node, nth_error nodes i = Some node).
    { intros i Hi. destruct (nth_error nodes i) as [x|] eqn:Ex; [eauto|].
      apply nth_error_None in Ex. specialize (Hall i Hi). lia. }
    rewrite determine_anchor_stages.
    destruct (Nat.eqb_spec (length smc) 1) as [H1|H1].
    - destruct smc as [|i [|? ?]]; try discriminate.
      destruct (Hnode i (or_introl eq_refl)) as [node Enode].
      exists i, node. split; [left; reflexivity|]. split; [exact Enode|].
      cbn. unfold getitem. rewrite Enode. reflexivity.
    - destruct Hcase as [|Hncl]; [contradiction|].
      destruct (not_clique_has_pair Hncl) as (i & j & Hfirst).
      destruct (first_disconnected_pair_sound _ _ Hfirst) as (Hi & _).
      destruct (Hnode i Hi) as [node Enode].
      exists i, node. split; [exact Hi|]. split; [exact Enode|].
      rewrite (@scan_pairs_spec Node nodes adj (length nodes) Hsq smc Hrange),
        Hfirst.
      unfold getitem. rewrite Enode. reflexivity. }
  destruct Hfound as (i & node & Hi & Enode & Hanchor).
  destruct (@smc_member_has_maximum_degree adj smc i Hsmc Hi)
    as (d & Hd & Hmax).
  exists i, node, d. repeat (split; [assumption|]).
  unfold RI_SDN. rewrite Hadj. cbn [bind]. rewrite Hsmc. exact Hanchor.
Qed.

Lemma anchor_is_candidate_unless_clique_witness :
  exists i node d,
    In i [0; 1; 2; 3] /\ nth_error (seq 0 4) i = Some node /\
    nth_error
      (degree_vector [[0; 1; 0; 0]; [1; 0; 0; 0]; [0; 0; 0; 1]; [0; 0; 1; 0]]%Z)
      i = Some d /\
    Forall (fun d' => (d' <= d)%Z)
      (degree_vector
         [[0; 1; 0; 0]; [1; 0; 0; 0]; [0; 0; 0; 1]; [0; 0; 1; 0]]%Z) /\
    RI_SDN Nat.eq_dec (seq 0 4) (probe [(0, 1); (2, 3)]) = Ok node.
Proof.
  apply (@anchor_is_candidate_unless_clique nat Nat.eq_dec (seq 0 4)
           (probe [(0, 1); (2, 3)])
           [[0; 1; 0; 0]; [1; 0; 0; 0]; [0; 0; 0; 1]; [0; 0; 1; 0]]%Z
           [0; 1; 2; 3]).
  - reflexivity.
  - reflexivity.
  - right. intros H. apply (H 0 2); simpl; auto.
Defined.

(** When the candidates are at least two and form a clique and at least two
    nodes share the minimum degree, the anchor of the pipeline is the first
    node of the node list, whether or not it has the minimum degree. *)
Theorem tied_minimum_returns_first_node {Node : Type}
    (Node_eq_dec : forall x y : Node, {x = y} + {x <> y})
    (nodes : list Node) (connectionsTo : Node -> list Node -> list Node)
    (adj : Np.matrix) (smc sdc : list nat) (first : Node) :
  adjacency_matrix Node_eq_dec nodes connectionsTo = Ok adj ->
  most_connected_nodes adj = Ok smc ->
  2 <= length smc ->
  clique smc adj ->
  sdc_of adj = Ok sdc ->
  2 <= length sdc ->
  nth_error nodes 0 = Some first ->
  RI_SDN Node_eq_dec nodes connectionsTo = Ok first.
Proof.
  intros Hadj Hsmc Hlen Hcl Hsdc Hlen' Hfirst.
  destruct (smc_in_range _ _ _ Hadj Hsmc) as [Hsq Hrange].
  unfold RI_SDN. rewrite Hadj. cbn [bind]. rewrite Hsmc. cbn [bind].
  rewrite determine_anchor_stages.
  destruct (Nat.eqb_spec (length smc) 1) as [|_]; [lia|].
  rewrite (@scan_pairs_spec Node nodes adj (length nodes) Hsq smc Hrange),
    (@clique_no_pair adj smc Hcl).
  cbn [bind]. unfold fallback. rewrite Hsdc. cbn [bind].
  rewrite (@resolve_sdc_secondary Node nodes adj sdc Hsdc) by lia.
  unfold getitem. rewrite Hfirst. reflexivity.
Qed.

(** The path 2 - 0 - 1 - 3: nodes 0 and 1 are the candidates, the leaves 2
    and 3 share the minimum degree, and the anchor is node 0. *)
Lemma tied_minimum_returns_first_node_witness :
  RI_SDN Nat.eq_dec (seq 0 4) (probe [(0, 2); (0, 1); (1, 3)]) = Ok 0.
Proof.
  apply (@tied_minimum_returns_first_node nat Nat.eq_dec (seq 0 4)
           (probe [(0, 2); (0, 1); (1, 3)])
           [[0; 1; 1; 0]; [1; 0; 0; 1]; [1; 0; 0; 0]; [0; 1; 0; 0]]%Z
           [0; 1] [2; 3] 0).
  - reflexivity.
  - reflexivity.
  - simpl. lia.
  - intros i j Hi Hj Hne. simpl in Hi, Hj.
    decompose [or] Hi; decompose [or] Hj; subst; try contradiction;
      try lia; discriminate.
  - reflexivity.
  - simpl. lia.
  - reflexivity.
Defined.

(** ** Snapshots in which every node has the same degree *)

Lemma where_eq_from_all (m : Z) (v : list Z) : forall k,
  (forall x, In x v -> x = m) ->
  Np.where_eq_from k v m = seq k (length v).
Proof.
  induction v as [|x v IH]; intros k H; [reflexivity|].
  cbn [Np.where_eq_from length seq].
  rewrite (H x (or_introl eq_refl)), Z.eqb_refl. f_equal.
  apply IH. intros y Hy. apply H. right. exact Hy.
Qed.

Lemma sum_zero_one_le (row : list Z) :
  Forall zero_one row ->
  (fold_left Z.add row 0 <= Z.of_nat (length row))%Z.
Proof.
  induction 1 as [|x row Hx _ IH]; [reflexivity|].
  cbn [fold_left length]. rewrite fold_add_shift.
  destruct Hx; subst; lia.
Qed.

Lemma sum_with_a_zero (row : list Z) : forall i,
  Forall zero_one row -> nth_error row i = Some 0%Z ->
  (fold_left Z.add row 0 <= Z.of_nat (length row) - 1)%Z.
Proof.
  induction row as [|x row IH]; intros [|i] Hrow Hi; try discriminate;
    inversion Hrow as [|? ? Hx Hrow']; subst;
    cbn [fold_left length nth_error] in *; rewrite fold_add_shift.
  - injection Hi as ->. pose proof (sum_zero_one_le Hrow'). lia.
  - pose proof (IH i Hrow' Hi). destruct Hx; subst; lia.
Qed.

Lemma sum_with_two_zeros (row : list Z) : forall i j,
  Forall zero_one row -> i <> j ->
  nth_error row i = Some 0%Z -> nth_error row j = Some 0%Z ->
  (fold_left Z.add row 0 <= Z.of_nat (length row) - 2)%Z.
Proof.
  induction row as [|x row IH]; intros [|i] [|j] Hrow Hne Hi Hj;
    try discriminate; try contradiction;
    inversion Hrow as [|? ? Hx Hrow']; subst;
    cbn [fold_left length nth_error] in *; rewrite fold_add_shift.
  - injection Hi as ->. pose proof (sum_with_a_zero j Hrow' Hj). lia.
  - injection Hj as ->. pose proof (sum_with_a_zero i Hrow' Hi). lia.
  - pose proof (IH i j Hrow' ltac:(lia) Hi Hj). destruct Hx; subst; lia.
Qed.

Lemma sum_without_zero (row : list Z) :
  Forall zero_one row ->
  (forall j, nth_error row j <> Some 0%Z) ->
  fold_left Z.add row 0%Z = Z.of_nat (length row).
Proof.
  induction 1 as [|x row Hx _ IH]; intros Hnz; [reflexivity|].
  cbn [fold_left length]. rewrite fold_add_shift, IH.
  - destruct Hx as [->| ->]; [|lia]. exfalso. apply (Hnz 0). reflexivity.
  - intros j. apply (Hnz (S j)).
Qed.

Lemma sum_with_one_zero (row : list Z) : forall i,
  Forall zero_one row -> nth_error row i = Some 0%Z ->
  (forall j, j <> i -> nth_error row j <> Some 0%Z) ->
  fold_left Z.add row 0%Z = (Z.of_nat (length row) - 1)%Z.
Proof.
  induction row as [|x row IH]; intros [|i] Hrow Hi Hnz; try discriminate;
    inversion Hrow as [|? ? Hx Hrow']; subst;
    cbn [fold_left length nth_error] in *; rewrite fold_add_shift.
  - injection Hi as ->. rewrite (sum_without_zero Hrow'); [lia|].
    intros j. apply (Hnz (S j)). discriminate.
  - rewrite (IH i Hrow' Hi).
    + destruct Hx as [->| ->]; [|lia].
      exfalso. apply (Hnz 0); [discriminate|reflexivity].
    + intros j Hj. apply (Hnz (S j)). lia.
Qed.

Lemma row_entry (n : nat) (adj : Np.matrix) (i j : nat) :
  square n adj -> i < n -> j < n ->
  nth_error (nth i adj []) j = Some (entry adj i j).
Proof.
  intros Hsq Hi Hj. unfold entry. apply nth_error_nth'.
  rewrite (square_row Hsq Hi). exact Hj.
Qed.

Lemma row_degree (n : nat) (adj : Np.matrix) (i : nat) :
  square n adj -> i < n ->
  nth_error (degree_vector adj) i
  = Some (fold_left Z.add (nth i adj []) 0%Z).
Proof.
  intros [Hlen _] Hi. unfold degree_vector, Np.sum_axis1.
  apply (map_nth_error (fun row => fold_left Z.add row 0%Z)).
  apply nth_error_nth'. lia.
Qed.

Lemma find_list_prod_head {A B : Type} (f : A * B -> bool) (x : A)
    (l : list A) (l' : list B) (y : B) :
  find (fun y => f (x, y)) l' = Some y ->
  find f (list_prod (x :: l) l') = Some (x, y).
Proof.
  intros E. cbn [list_prod]. rewrite find_app_split, find_map_pair, E.
  reflexivity.
Qed.

Lemma first_pair_at_head (adj : Np.matrix) (x j : nat) (l : list nat) :
  find (disconnected adj x) (x :: l) = Some j ->
  first_disconnected_pair (x :: l) adj = Some (x, j).
Proof.
  intros E. unfold first_disconnected_pair.
  apply (find_list_prod_head (fun '(i, j) => disconnected adj i j)).
  exact E.
Qed.

(** On a square 0/1 matrix with zero diagonal and at least two rows whose
    row sums are all equal, every index is a candidate and the anchor is the
    first node, whether the scan or the fallback decides. *)
Lemma regular_matrix_anchor {Node : Type} (nodes : list Node)
    (adj : Np.matrix) (n : nat) (d : Z) (first : Node) :
  square n adj -> 2 <= n ->
  Forall (Forall zero_one) adj ->
  zero_diagonal adj ->
  (forall x, In x (degree_vector adj) -> x = d) ->
  nth_error nodes 0 = Some first ->
  most_connected_nodes adj = Ok (seq 0 n) /\
  determine_anchor nodes (seq 0 n) adj = Ok first.
Proof.
  intros Hsq Hn H01 Hdiag Hreg Hfirst.
  assert (Hlen : length (degree_vector adj) = n)
    by (unfold degree_vector; rewrite sum_axis1_length; apply Hsq).
  assert (Hne : degree_vector adj <> [])
    by (intros E; rewrite E in Hlen; simpl in Hlen; lia).
  assert (Hsmc : most_connected_nodes adj = Ok (seq 0 n)).
  { unfold most_connected_nodes. destruct (np_max_ok Hne) as [m Hm].
    rewrite Hm. cbn [bind]. destruct (np_max_spec _ Hm) as [Hin _].
    rewrite (Hreg m Hin). unfold Np.where_eq.
    rewrite (@where_eq_from_all d (degree_vector adj) 0 Hreg), Hlen.
    reflexivity. }
  assert (Hsdc : sdc_of adj = Ok (seq 0 n)).
  { unfold sdc_of. change (distance_vector adj) with (degree_vector adj).
    destruct (np_min_ok Hne) as [m Hm].
    rewrite Hm. cbn [bind]. destruct (np_min_spec _ Hm) as [Hin _].
    rewrite (Hreg m Hin). unfold Np.where_eq.
    rewrite (@where_eq_from_all d (degree_vector adj) 0 Hreg), Hlen.
    reflexivity. }
  split; [exact Hsmc|].
  assert (Hrange : Forall (fun i => i < n) (seq 0 n)).
  { apply Forall_forall. intros i Hi. apply in_seq in Hi. lia. }
  assert (Hrow01 : forall i, i < n -> Forall zero_one (nth i adj [])).
  { intros i Hi. rewrite Forall_forall in H01. apply H01, nth_In.
    destruct Hsq; lia. }
  assert (Hsum : forall i, i < n -> fold_left Z.add (nth i adj []) 0%Z = d).
  { intros i Hi. apply Hreg. eapply nth_error_In, (row_degree Hsq Hi). }
  rewrite determine_anchor_stages, length_seq.
  destruct (Nat.eqb_spec n 1) as [|_]; [lia|].
  rewrite (@scan_pairs_spec Node nodes adj n Hsq (seq 0 n) Hrange).
  destruct n as [|n']; [lia|]. cbn [seq] in *.
  destruct (find (disconnected adj 0) (0 :: seq 1 n')) as [j|] eqn:E.
  - rewrite (first_pair_at_head _ _ _ E).
    unfold getitem. rewrite Hfirst. reflexivity.
  - assert (Hrow0 : forall j, j <> 0 ->
                      nth_error (nth 0 adj []) j <> Some 0%Z).
    { intros j Hj Hz.
      assert (Hjn : j < S n').
      { rewrite <- (square_row Hsq (Nat.lt_0_succ n')).
        apply nth_error_Some. congruence. }
      rewrite (row_entry Hsq (Nat.lt_0_succ n') Hjn) in Hz.
      injection Hz as Hz.
      pose proof (find_none _ _ E j) as Hnone.
      change (0 :: seq 1 n') with (seq 0 (S n')) in Hnone.
      specialize (Hnone ltac:(apply in_seq; lia)).
      unfold disconnected in Hnone. rewrite Hz in Hnone.
      destruct j; [contradiction|discriminate]. }
    assert (Hd : d = (Z.of_nat (S n') - 1)%Z).
    { rewrite <- (Hsum 0 (Nat.lt_0_succ n')).
      rewrite (@sum_with_one_zero (nth 0 adj []) 0
                 (Hrow01 0 (Nat.lt_0_succ n')));
        [rewrite (square_row Hsq (Nat.lt_0_succ n')); reflexivity
        | rewrite (row_entry Hsq (Nat.lt_0_succ n') (Nat.lt_0_succ n')),
            (Hdiag 0); reflexivity
        | exact Hrow0]. }
    assert (Hcl : clique (0 :: seq 1 n') adj).
    { intros i j Hi Hj Hne' Hz.
      change (0 :: seq 1 n') with (seq 0 (S n')) in Hi, Hj.
      apply in_seq in Hi, Hj.
      pose proof (@sum_with_two_zeros (nth i adj []) i j
                    (Hrow01 i ltac:(lia)) Hne') as Hle.
      rewrite !(row_entry Hsq) in Hle by lia.
      rewrite (Hdiag i), Hz in Hle. specialize (Hle eq_refl eq_refl).
      rewrite (Hsum i ltac:(lia)), (square_row Hsq) in Hle by lia. lia. }
    rewrite (@clique_no_pair adj _ Hcl). cbn [bind].
    unfold fallback. rewrite Hsdc. cbn [bind seq].
    rewrite (@resolve_sdc_secondary Node nodes adj (0 :: seq 1 n') Hsdc)
      by (cbn [length]; rewrite length_seq; lia).
    unfold getitem. rewrite Hfirst. reflexivity.
Qed.

Lemma linked_zero_one {Node : Type}
    (Node_eq_dec : forall x y : Node, {x = y} + {x <> y})
    (nodes : list Node) (connectionsTo : Node -> list Node -> list Node)
    (node neighbor : Node) :
  zero_one (linked Node_eq_dec nodes connectionsTo node neighbor).
Proof.
  unfold linked, zero_one.
  destruct (in_dec Node_eq_dec neighbor (connectionsTo node nodes)); auto.
Qed.

(** In a snapshot of at least two nodes in which no node is reported among
    its own connections and all nodes have the same degree, the anchor of
    the pipeline is the first node of the node list. *)
Theorem regular_snapshot_first_node {Node : Type}
    (Node_eq_dec : forall x y : Node, {x = y} + {x <> y})
    (nodes : list Node) (connectionsTo : Node -> list Node -> list Node)
    (adj : Np.matrix) (d : Z) (first : Node) :
  adjacency_matrix Node_eq_dec nodes connectionsTo = Ok adj ->
  2 <= length nodes ->
  (forall a, In a nodes -> ~ In a (connectionsTo a nodes)) ->
  (forall x, In x (degree_vector adj) -> x = d) ->
  nth_error nodes 0 = Some first ->
  RI_SDN Node_eq_dec nodes connectionsTo = Ok first.
Proof.
  intros Hadj Hn Hirr Hreg Hfirst.
  destruct (adjacency_matrix_spec Node_eq_dec nodes connectionsTo)
    as (adj' & E & Hsq & Hentry).
  rewrite Hadj in E. injection E as <-.
  assert (H01 : Forall (Forall zero_one) adj).
  { rewrite (adjacency_matrix_rows _ _ _ Hadj).
    apply Forall_forall. intros row Hrow.
    apply in_map_iff in Hrow as (node & <- & _).
    apply Forall_forall. intros x Hx.
    apply in_map_iff in Hx as (nb & <- & _). apply linked_zero_one. }
  assert (Hdiag : zero_diagonal adj).
  { intros i. destruct (Nat.lt_ge_cases i (length nodes)) as [Hi|Hi];
      [|apply (entry_outside Hsq); lia].
    destruct (nth_error nodes i) as [x|] eqn:Ex;
      [|apply nth_error_None in Ex; lia].
    rewrite (Hentry i i x x Ex Ex). unfold linked.
    destruct (in_dec Node_eq_dec x (connectionsTo x nodes)) as [H|H];
      [|reflexivity].
    exfalso. exact (Hirr x (nth_error_In _ _ Ex) H). }
  destruct (@regular_matrix_anchor Node nodes adj (length nodes) d first
              Hsq Hn H01 Hdiag Hreg Hfirst) as [Hsmc Hanchor].
  unfold RI_SDN. rewrite Hadj. cbn [bind]. rewrite Hsmc. exact Hanchor.
Qed.

(** The ring 0 - 1 - 2 - 3 - 0. *)
Lemma regular_snapshot_first_node_witness :
  RI_SDN Nat.eq_dec (seq 0 4) (probe [(0, 1); (1, 2); (2, 3); (3, 0)]) = Ok 0.
Proof.
  apply (@regular_snapshot_first_node nat Nat.eq_dec (seq 0 4)
           (probe [(0, 1); (1, 2); (2, 3); (3, 0)])
           [[0; 1; 0; 1]; [1; 0; 1; 0]; [0; 1; 0; 1]; [1; 0; 1; 0]]%Z
           2%Z 0).
  - reflexivity.
  - simpl. lia.
  - intros a Ha. simpl in Ha.
    decompose [or] Ha; subst; vm_compute; intuition congruence.
  - intros x Hx. simpl in Hx. decompose [or] Hx; subst; try reflexivity.
    contradiction.
  - reflexivity.
Defined.

(** ** The set-up code: the grid of access points *)

Module SetupFacts.
Import String Ascii Setup.

Lemma append_calls {A B : Type} (g : B -> A) (cs : list B) : forall acc,
  fold_left (fun aps j => aps ++ [g j]) cs acc = acc ++ map g cs.
Proof.
  induction cs as [|c cs IH]; intros acc; cbn [fold_left map].
  - rewrite app_nil_r. reflexivity.
  - rewrite IH, <- app_assoc. reflexivity.
Qed.

Lemma append_rows {A B R : Type} (f : R -> B -> A) (cs : list B)
    (rs : list R) : forall acc,
  fold_left (fun aps i => fold_left (fun aps j => aps ++ [f i j]) cs aps)
            rs acc
  = acc ++ flat_map (fun i => map (f i) cs) rs.
Proof.
  induction rs as [|r rs IH]; intros acc; cbn [fold_left flat_map].
  - rewrite app_nil_r. reflexivity.
  - rewrite IH, append_calls, <- app_assoc. reflexivity.
Qed.

(** The nested loops list the grid row by row. *)
Lemma create_access_points_rows (rows cols : Z) :
  create_access_points rows cols
  = flat_map (fun i => map (access_point_at cols i) (range cols))
             (range rows).
Proof.
  unfold create_access_points.
  exact (append_rows (access_point_at cols) (range cols) (range rows) []).
Qed.

Lemma range_length (n : Z) : List.length (range n) = Z.to_nat n.
Proof. unfold range. rewrite length_map, length_seq. reflexivity. Qed.

Lemma range_nth (n : Z) (i : nat) :
  i < Z.to_nat n -> nth_error (range n) i = Some (Z.of_nat i).
Proof.
  intros Hi. unfold range.
  apply (map_nth_error Z.of_nat).
  rewrite nth_error_seq. destruct (Nat.ltb_spec i (Z.to_nat n)); [|lia].
  reflexivity.
Qed.

Lemma grid_length {A B R : Type} (f : R -> B -> A) (cs : list B)
    (rs : list R) :
  List.length (flat_map (fun i => map (f i) cs) rs)
  = List.length rs * List.length cs.
Proof.
  induction rs as [|r rs IH]; [reflexivity|].
  cbn [flat_map List.length]. rewrite length_app, length_map, IH. lia.
Qed.

Lemma grid_nth {A B R : Type} (f : R -> B -> A) (cs : list B) (y : B)
    (j : nat) :
  nth_error cs j = Some y ->
  forall (rs : list R) (i : nat) (x : R),
  nth_error rs i = Some x ->
  nth_error (flat_map (fun i => map (f i) cs) rs) (i * List.length cs + j)
  = Some (f x y).
Proof.
  intros Hj.
  assert (Hlt : j < List.length cs) by (apply nth_error_Some; congruence).
  induction rs as [|r rs IH]; intros [|i] x Hi; try discriminate;
    cbn [flat_map nth_error] in *.
  - injection Hi as ->. rewrite nth_error_app1 by (rewrite length_map; lia).
    apply (map_nth_error (f x)), Hj.
  - rewrite nth_error_app2 by (rewrite length_map; lia).
    rewrite length_map.
    replace (S i * List.length cs + j - List.length cs)
      with (i * List.length cs + j) by lia.
    apply IH, Hi.
Qed.

(** [create_access_points] creates [rows * cols] access points, and none
    when [rows] or [cols] is zero or negative. *)
Theorem create_access_points_count (rows cols : Z) :
  List.length (create_access_points rows cols)
  = Z.to_nat rows * Z.to_nat cols /\
  (create_access_points rows cols = [] <-> (rows <= 0 \/ cols <= 0)%Z).
Proof.
  assert (Hlen : List.length (create_access_points rows cols)
                 = Z.to_nat rows * Z.to_nat cols).
  { rewrite create_access_points_rows, grid_length, !range_length.
    reflexivity. }
  split; [exact Hlen|]. split.
  - intros E. rewrite E in Hlen. cbn [List.length] in Hlen. nia.
  - intros H. apply length_zero_iff_nil. rewrite Hlen.
    destruct H as [H|H]; [replace (Z.to_nat rows) with 0 by lia
                         |replace (Z.to_nat cols) with 0 by lia]; lia.
Qed.

(** The access point of row [i] and column [j] of the grid is the element
    of index [i * cols + j] of the list; it is numbered [i * cols + j + 1]
    in its name, SSID and channel, and placed at x = 50 (j + 1),
    y = 50 (i + 1). *)
Theorem create_access_points_nth (rows cols : Z) (i j : nat) :
  i < Z.to_nat rows -> j < Z.to_nat cols ->
  exists ap,
    nth_error (create_access_points rows cols) (i * Z.to_nat cols + j)
      = Some ap /\
    ap_name ap
      = ("ap" ++ str (Z.of_nat (i * Z.to_nat cols + j) + 1))%string /\
    ap_ssid ap
      = ("ap" ++ str (Z.of_nat (i * Z.to_nat cols + j) + 1)
              ++ "-wlan0")%string /\
    ap_mode ap = "g"%string /\
    ap_channel ap = str (Z.of_nat (i * Z.to_nat cols + j) + 1) /\
    ap_position ap
      = (str (50 * (Z.of_nat j + 1)) ++ "," ++
         str (50 * (Z.of_nat i + 1)) ++ ",0")%string.
Proof.
  intros Hi Hj. exists (access_point_at cols (Z.of_nat i) (Z.of_nat j)).
  split.
  - rewrite create_access_points_rows, <- (range_length cols).
    exact (@grid_nth _ _ _ (access_point_at cols) (range cols) (Z.of_nat j) j
             (@range_nth cols j Hj) (range rows) i (Z.of_nat i)
             (@range_nth rows i Hi)).
  - assert (E : (Z.of_nat i * cols + Z.of_nat j + 1
                 = Z.of_nat (i * Z.to_nat cols + j) + 1)%Z).
    { rewrite Nat2Z.inj_add, Nat2Z.inj_mul, Z2Nat.id by lia. reflexivity. }
    unfold access_point_at. cbn [ap_name ap_ssid ap_mode ap_channel
                                   ap_position].
    rewrite E, !(Z.mul_comm _ 50). repeat split.
Qed.

Lemma create_access_points_nth_witness :
  exists ap,
    nth_error (create_access_points 2 3) (1 * Z.to_nat 3 + 2) = Some ap /\
    ap_name ap = ("ap" ++ str (Z.of_nat (1 * Z.to_nat 3 + 2) + 1))%string /\
    ap_ssid ap
      = ("ap" ++ str (Z.of_nat (1 * Z.to_nat 3 + 2) + 1) ++ "-wlan0")%string /\
    ap_mode ap = "g"%string /\
    ap_channel ap = str (Z.of_nat (1 * Z.to_nat 3 + 2) + 1) /\
    ap_position ap
      = (str (50 * (Z.of_nat 2 + 1)) ++ "," ++
         str (50 * (Z.of_nat 1 + 1)) ++ ",0")%string.
Proof.
  apply (@create_access_points_nth 2 3 1 2); simpl; lia.
Defined.

(** *** Names, channels and positions are pairwise distinct *)

Lemma to_int_proper (z : Z) :
  Z.to_int z <> Decimal.Pos Decimal.Nil /\
  Z.to_int z <> Decimal.Neg Decimal.Nil.
Proof.
  destruct z as [|p|p]; cbn; split; try discriminate;
    intros H; injection H as H;
    exact (DecimalPos.Unsigned.to_uint_nonnil p H).
Qed.

Lemma str_inj (a b : Z) : str a = str b -> a = b.
Proof.
  unfold str. intros H. apply DecimalZ.to_int_inj.
  apply (f_equal DecimalString.NilZero.int_of_string) in H.
  destruct (to_int_proper a) as [Ha Ha'], (to_int_proper b) as [Hb Hb'].
  rewrite !DecimalString.NilZero.isi in H by assumption.
  injection H as H. exact H.
Qed.

(** A string that holds no separator is its own single field. *)
Lemma split_field (sep : ascii) (t : string) : forall s,
  split sep s = [s] ->
  split sep (s ++ String sep t) = s :: split sep t.
Proof.
  induction s as [|c s IH]; intros H; cbn [append split] in *.
  - rewrite Ascii.eqb_refl. reflexivity.
  - destruct (Ascii.eqb c sep); [discriminate|].
    destruct (split sep s) as [|field fields] eqn:E.
    + injection H as H. subst s. discriminate.
    + injection H as -> ->. rewrite (IH eq_refl). reflexivity.
Qed.

Lemma split_digits (d : Decimal.uint) :
  split "," (DecimalString.NilEmpty.string_of_uint d)
  = [DecimalString.NilEmpty.string_of_uint d].
Proof.
  induction d; cbn [DecimalString.NilEmpty.string_of_uint split];
    try reflexivity; cbn [Ascii.eqb Bool.eqb]; rewrite IHd; reflexivity.
Qed.

Lemma split_str (z : Z) : split "," (str z) = [str z].
Proof.
  unfold str.
  assert (H : forall d, split "," (DecimalString.NilZero.string_of_uint d)
                        = [DecimalString.NilZero.string_of_uint d]).
  { intros d. destruct d; try exact (split_digits _). reflexivity. }
  destruct (Z.to_int z) as [d|d]; cbn [DecimalString.NilZero.string_of_int].
  - apply H.
  - cbn [split Ascii.eqb Bool.eqb]. rewrite H. reflexivity.
Qed.

(** The position text of an access point splits at its commas into the two
    coordinates and the height 0. *)
Lemma position_fields (cols i j : Z) :
  split "," (ap_position (access_point_at cols i j))
  = [str ((j + 1) * 50); str ((i + 1) * 50); "0"%string].
Proof.
  cbn [ap_position access_point_at].
  change ("," ++ str ((i + 1) * 50) ++ ",0")%string
    with (String "," (str ((i + 1) * 50) ++ String "," "0")).
  rewrite (split_field _ _ (split_str _)), (split_field _ _ (split_str _)).
  reflexivity.
Qed.

Lemma access_point_index (rows cols : Z) (k : nat) :
  k < Z.to_nat rows * Z.to_nat cols ->
  nth_error (create_access_points rows cols) k
  = Some (access_point_at cols (Z.of_nat (k / Z.to_nat cols))
                          (Z.of_nat (k mod Z.to_nat cols))) /\
  (Z.of_nat (k / Z.to_nat cols) * cols + Z.of_nat (k mod Z.to_nat cols)
   = Z.of_nat k)%Z.
Proof.
  intros Hk. set (C := Z.to_nat cols) in *.
  assert (HC : C <> 0) by nia.
  pose proof (Nat.div_mod_eq k C) as Hdm.
  pose proof (Nat.mod_upper_bound k C HC) as Hj.
  assert (Hi : k / C < Z.to_nat rows)
    by (apply Nat.Div0.div_lt_upper_bound; lia).
  split.
  - rewrite create_access_points_rows.
    pose proof (@grid_nth _ _ _ (access_point_at cols) (range cols)
                  (Z.of_nat (k mod C)) (k mod C)
                  (@range_nth cols (k mod C) Hj) (range rows) (k / C)
                  (Z.of_nat (k / C)) (@range_nth rows (k / C) Hi)) as H.
    rewrite range_length in H. fold C in H.
    replace (k / C * C + k mod C) with k in H by lia. exact H.
  - replace cols with (Z.of_nat C) at 1 by (subst C; lia).
    rewrite <- Nat2Z.inj_mul, <- Nat2Z.inj_add. f_equal. lia.
Qed.

(** The access points of a grid have pairwise distinct names, pairwise
    distinct channels and pairwise distinct positions. *)
Theorem create_access_points_distinct (rows cols : Z) :
  NoDup (map ap_name (create_access_points rows cols)) /\
  NoDup (map ap_channel (create_access_points rows cols)) /\
  NoDup (map ap_position (create_access_points rows cols)).
Proof.
  pose proof (create_access_points_rows rows cols) as Hrows.
  assert (Hlen : List.length (create_access_points rows cols)
                 = Z.to_nat rows * Z.to_nat cols).
  { rewrite Hrows, grid_length, !range_length. reflexivity. }
  assert (Hnodup : forall (B : Type) (f : access_point -> B),
            (forall k k', k < Z.to_nat rows * Z.to_nat cols ->
               k' < Z.to_nat rows * Z.to_nat cols ->
               f (access_point_at cols (Z.of_nat (k / Z.to_nat cols))
                    (Z.of_nat (k mod Z.to_nat cols)))
               = f (access_point_at cols (Z.of_nat (k' / Z.to_nat cols))
                      (Z.of_nat (k' mod Z.to_nat cols))) ->
               k = k') ->
            NoDup (map f (create_access_points rows cols))).
  { intros B f Hinj. apply NoDup_nth_error. intros k k' Hk E.
    rewrite length_map, Hlen in Hk.
    assert (Hk' : k' < Z.to_nat rows * Z.to_nat cols).
    { rewrite <- Hlen, <- (length_map f). apply nth_error_Some.
      rewrite <- E. apply nth_error_Some. rewrite length_map, Hlen.
      exact Hk. }
    rewrite !nth_error_map in E.
    destruct (access_point_index rows cols Hk) as [Ek _].
    destruct (access_point_index rows cols Hk') as [Ek' _].
    rewrite Ek, Ek' in E. injection E as E. exact (Hinj k k' Hk Hk' E). }
  assert (Hnum : forall k k', k < Z.to_nat rows * Z.to_nat cols ->
            k' < Z.to_nat rows * Z.to_nat cols ->
            (Z.of_nat (k / Z.to_nat cols) * cols
               + Z.of_nat (k mod Z.to_nat cols) + 1
             = Z.of_nat (k' / Z.to_nat cols) * cols
               + Z.of_nat (k' mod Z.to_nat cols) + 1)%Z ->
            k = k').
  { intros k k' Hk Hk' E.
    destruct (access_point_index rows cols Hk) as [_ Ek].
    destruct (access_point_index rows cols Hk') as [_ Ek'].
    rewrite Ek, Ek' in E. lia. }
  split; [|split]; apply Hnodup; intros k k' Hk Hk' E.
  - cbn [ap_name access_point_at append] in E. injection E as E.
    apply (Hnum k k' Hk Hk'), str_inj, E.
  - cbn [ap_channel access_point_at] in E.
    apply (Hnum k k' Hk Hk'), str_inj, E.
  - apply (f_equal (split ",")) in E. rewrite !position_fields in E.
    injection E as Ex Ey. apply str_inj in Ex, Ey.
    assert (HC : Z.to_nat cols <> 0) by nia.
    pose proof (Nat.div_mod_eq k (Z.to_nat cols)).
    pose proof (Nat.div_mod_eq k' (Z.to_nat cols)).
    assert (k / Z.to_nat cols = k' / Z.to_nat cols) by lia.
    assert (k mod Z.to_nat cols = k' mod Z.to_nat cols) by lia.
    congruence.
Qed.

(** *** The links *)

Lemma subscript_minus_one {A : Type} (l : list A) :
  subscript l (-1)
  = match l with
    | [] => Raise IndexError
    | _ :: _ => getitem l (List.length l - 1)
    end.
Proof.
  destruct l as [|x l]; [reflexivity|]. unfold subscript.
  destruct (Z.ltb_spec (-1 + Z.of_nat (List.length (x :: l))) 0) as [H|_].
  - cbn [List.length] in H. lia.
  - cbn [Z.ltb Z.compare]. f_equal. cbn [List.length]. lia.
Qed.

Lemma getitem_last {A : Type} (d : A) (l : list A) :
  l <> [] -> getitem l (List.length l - 1) = Ok (last l d).
Proof.
  induction l as [|x [|y l] IH]; intros H; [congruence|reflexivity|].
  specialize (IH ltac:(discriminate)).
  cbn [List.length Nat.sub] in *. rewrite ?Nat.sub_0_r in *.
  change (last (x :: y :: l) d) with (last (y :: l) d).
  unfold getitem in *. cbn [nth_error]. exact IH.
Qed.

(** [create_links] raises IndexError, before any link is added, exactly
    when the list of access points is empty; otherwise it adds seven links,
    the first from [s1] to the first access point and the fourth from [s6]
    to the last one, which is the same access point when there is only
    one. *)
Theorem create_links_calls {Node : Type} (h1 h2 : Node) (aps : list Node)
    (s1 s2 s5 s6 : Node) :
  create_links h1 h2 aps s1 s2 s5 s6
  = match aps with
    | [] => ([], Raise IndexError)
    | ap :: _ =>
        ([addLink s1 ap 300; addLink h1 s1 100; addLink h2 s6 100;
          addLink s6 (last aps ap) 300; addLink s1 s2 300;
          addLink s5 s6 400; addLink s2 s5 200], Ok tt)
    end.
Proof.
  destruct aps as [|ap aps]; [reflexivity|].
  unfold create_links.
  rewrite subscript_minus_one, (getitem_last ap) by discriminate.
  reflexivity.
Qed.

(** In [topology] the links are made on the grid of access points: with
    [rows] or [cols] zero or negative no access point exists and
    [create_links] raises IndexError without adding a link; otherwise [s1]
    is linked to the access point named ap1 and [s6] to the one named
    ap(rows * cols). *)
Theorem create_links_on_grid {Node : Type} (embed : access_point -> Node)
    (rows cols : Z) (h1 h2 s1 s2 s5 s6 : Node) :
  if ((0 <? rows) && (0 <? cols))%Z then
    exists first last,
      ap_name first = "ap1"%string /\
      ap_name last = ("ap" ++ str (rows * cols))%string /\
      create_links h1 h2 (map embed (create_access_points rows cols))
                   s1 s2 s5 s6
      = ([addLink s1 (embed first) 300; addLink h1 s1 100;
          addLink h2 s6 100; addLink s6 (embed last) 300;
          addLink s1 s2 300; addLink s5 s6 400; addLink s2 s5 200], Ok tt)
  else
    create_access_points rows cols = [] /\
    create_links h1 h2 (map embed (create_access_points rows cols))
                 s1 s2 s5 s6 = ([], Raise IndexError).
Proof.
  destruct (Z.ltb_spec 0 rows) as [Hr|Hr]; cbn [andb];
    [destruct (Z.ltb_spec 0 cols) as [Hc|Hc]|].
  - set (R := Z.to_nat rows). set (C := Z.to_nat cols).
    assert (HN : 0 < R * C) by (subst R C; nia).
    destruct (@access_point_index rows cols 0 HN) as [E0 _].
    destruct (@access_point_index rows cols (R * C - 1) ltac:(fold R C; lia))
      as [El _].
    fold C in E0, El.
    assert (Hq : (R * C - 1) / C = R - 1)
      by (symmetry; apply (Nat.div_unique _ _ _ (C - 1)); nia).
    assert (Hm : (R * C - 1) mod C = C - 1)
      by (symmetry; apply (Nat.mod_unique _ _ (R - 1)); nia).
    rewrite Hq, Hm in El.
    rewrite Nat.Div0.div_0_l, Nat.Div0.mod_0_l in E0.
    exists (access_point_at cols 0 0),
      (access_point_at cols (Z.of_nat (R - 1)) (Z.of_nat (C - 1))).
    split; [reflexivity|]. split.
    + cbn [ap_name access_point_at]. do 2 f_equal. subst R C. nia.
    + assert (Hlen : List.length (create_access_points rows cols) = R * C).
      { rewrite create_access_points_rows, grid_length, !range_length.
        reflexivity. }
      unfold create_links.
      rewrite subscript_minus_one.
      destruct (map embed (create_access_points rows cols))
        as [|x l] eqn:Emap.
      { apply (f_equal (@List.length Node)) in Emap.
        rewrite length_map, Hlen in Emap. cbn in Emap. lia. }
      rewrite <- Emap. unfold subscript, getitem.
      rewrite length_map, Hlen, !nth_error_map.
      cbn [Z.ltb Z.compare Z.to_nat]. rewrite E0, El. reflexivity.
  - assert (E : create_access_points rows cols = []).
    { apply length_zero_iff_nil.
      rewrite create_access_points_rows, grid_length, !range_length.
      replace (Z.to_nat cols) with 0 by lia. lia. }
    rewrite E. split; reflexivity.
  - assert (E : create_access_points rows cols = []).
    { apply length_zero_iff_nil.
      rewrite create_access_points_rows, grid_length, !range_length.
      replace (Z.to_nat rows) with 0 by lia. lia. }
    rewrite E. split; reflexivity.
Qed.

(** *** The grid dimensions read from the arguments *)

Lemma for_each_app {A S : Type} (body : A -> S -> result S) (l2 : list A) :
  forall (l1 : list A) (s : S),
  for_each (l1 ++ l2) body s
  = (s' <- for_each l1 body s ;; for_each l2 body s').
Proof.
  induction l1 as [|x l1 IH]; intros s; [reflexivity|].
  cbn [app for_each]. destruct (body x s) as [s1|e]; [|reflexivity].
  cbn [bind]. apply IH.
Qed.

Lemma split_nonempty (sep : ascii) (s : string) :
  exists field fields, split sep s = field :: fields.
Proof.
  induction s as [|c s (field & fields & IH)]; cbn [split]; [eauto|].
  destruct (Ascii.eqb c sep); [eauto|]. rewrite IH. eauto.
Qed.

Section Int.

Variable int : string -> result Z.

(** Arguments that start with neither [--rows=] nor [--cols=] have no
    effect on the grid dimensions; with no argument that does, the grid is
    2 by 3 and [int] is never called. *)
Theorem grid_dimensions_other_arguments (args : list string) :
  grid_dimensions int args
  = grid_dimensions int
      (filter (fun arg => prefix "--rows=" arg || prefix "--cols=" arg) args)
  /\ (filter (fun arg => prefix "--rows=" arg || prefix "--cols=" arg) args
      = [] -> grid_dimensions int args = Ok (2, 3)%Z).
Proof.
  assert (H : forall s,
            for_each args
              (fun arg '(rows, cols) =>
                 if prefix "--rows=" arg then
                   text <- getitem (split "=" arg) 1 ;;
                   rows <- int text ;; Ok (rows, cols)
                 else if prefix "--cols=" arg then
                   text <- getitem (split "=" arg) 1 ;;
                   cols <- int text ;; Ok (rows, cols)
                 else Ok (rows, cols)) s
            = for_each
                (filter (fun arg => prefix "--rows=" arg
                                    || prefix "--cols=" arg) args)
                (fun arg '(rows, cols) =>
                   if prefix "--rows=" arg then
                     text <- getitem (split "=" arg) 1 ;;
                     rows <- int text ;; Ok (rows, cols)
                   else if prefix "--cols=" arg then
                     text <- getitem (split "=" arg) 1 ;;
                     cols <- int text ;; Ok (rows, cols)
                   else Ok (rows, cols)) s).
  { induction args as [|arg args IH]; intros [rows cols]; [reflexivity|].
    cbn [for_each filter].
    destruct (prefix "--rows=" arg) eqn:Er; cbn [orb].
    - cbn [for_each]. rewrite Er.
      destruct (text <- getitem (split "=" arg) 1 ;;
                rows0 <- int text ;; Ok (rows0, cols)) as [s'|e];
        [|reflexivity].
      cbn [bind]. apply IH.
    - destruct (prefix "--cols=" arg) eqn:Ec.
      + cbn [for_each]. rewrite Er, Ec.
        destruct (text <- getitem (split "=" arg) 1 ;;
                  cols0 <- int text ;; Ok (rows, cols0)) as [s'|e];
          [|reflexivity].
        cbn [bind]. apply IH.
      + cbn [bind]. apply IH. }
  split; [apply H|].
  intros E. unfold grid_dimensions. rewrite H, E. reflexivity.
Qed.

(** A later [--rows=] or [--cols=] argument overrides the earlier ones and
    leaves the other dimension as it was; the text handed to [int] is what
    follows the prefix up to the next ['='], so the subscript [[1]] never
    leaves its range; an error raised for an earlier argument still
    aborts. *)
Theorem grid_dimensions_last_wins (args : list string) (v : string) :
  grid_dimensions int (args ++ [("--rows=" ++ v)%string])
  = (d <- grid_dimensions int args ;;
     rows <- int (hd ""%string (split "=" v)) ;;
     Ok (rows, snd d)) /\
  grid_dimensions int (args ++ [("--cols=" ++ v)%string])
  = (d <- grid_dimensions int args ;;
     cols <- int (hd ""%string (split "=" v)) ;;
     Ok (fst d, cols)).
Proof.
  destruct (split_nonempty "=" v) as (field & fields & E).
  unfold grid_dimensions. rewrite !for_each_app.
  destruct (for_each args _ (2%Z, 3%Z)) as [[rows cols]|e];
    [|split; reflexivity].
  assert (Hp : prefix "" v = true) by (destruct v; reflexivity).
  cbn. rewrite E, Hp. cbn.
  destruct (int field); split; reflexivity.
Qed.

End Int.

(** *** The mobility set-up *)

Lemma existsb_filter {A : Type} (f p : A -> bool) (l : list A) :
  (forall a, f a = true -> p a = true) ->
  existsb f (filter p l) = existsb f l.
Proof.
  intros H. induction l as [|a l IH]; [reflexivity|]. cbn [filter existsb].
  destruct (p a) eqn:Ep; cbn [existsb]; rewrite IH; [reflexivity|].
  destruct (f a) eqn:Ef; [|reflexivity].
  rewrite (H a Ef) in Ep. discriminate.
Qed.

(** Of its arguments [setup_mobility] looks at nothing but the presence of
    [-p] and of [-c]: every other argument can be dropped without changing
    a call. *)
Theorem setup_mobility_other_arguments {Sta : Type} (args : list string)
    (sta1 sta2 sta3 : Sta) :
  setup_mobility args sta1 sta2 sta3
  = setup_mobility
      (filter (fun arg => (arg =? "-p")%string || (arg =? "-c")%string) args)
      sta1 sta2 sta3.
Proof.
  unfold setup_mobility, has_argument.
  rewrite !(existsb_filter _
              (fun arg => (arg =? "-p")%string || (arg =? "-c")%string)).
  - reflexivity.
  - intros a H. apply String.eqb_eq in H. subst a. reflexivity.
  - intros a H. apply String.eqb_eq in H. subst a. reflexivity.
Qed.


End SetupFacts.

(** ** Degrees in an undirected snapshot without self-loops *)






